(** * VCS: resolutions, the on-disk mode-parameter and alias files, and the
      capture event/frame hand-off

    A shallow embedding of the parts of VCS that the capture specification
    talks about:

    - [Display]: [resolution_s] and its comparison operators
      (src/display/display.h);
    - [Qt]: the few Qt text conversions the disk code relies on
      (integer to text, [toUInt], [toInt]);
    - [Disk]: [kdisk_save_mode_params], [kdisk_load_video_mode_params] and
      [kdisk_load_aliases] (src/common/disk.cpp);
    - [AliasFile]: [kdisk_save_aliases] and the numbers it writes through
      [file_writer_c] (src/common/disk.cpp);
    - [FilterSetFile]: from [kdisk_save_filter_sets] and
      [kdisk_load_filter_sets] (src/common/disk.cpp), the activation kept in
      the [inout] row, the identifiers of the filters and the reading of a
      filter's parameters;
    - [Capture]: the signal-parameter lookup, the sticky event flags and the
      frame skip window of [capture_api_rgbeasy_s].  The header
      src/capture/capture_api_rgbeasy.h declares them; their bodies are not
      part of the sources, so they are modelled from the specification.

    Integers are [Z].  [unsigned long] is taken to be 64 bits wide (LP64),
    [unsigned int] and [int] 32 bits wide. *)

From Stdlib Require Import ZArith List String Ascii Bool Lia.
From Stdlib Require Import Permutation Sorted.
From Stdlib Require Decimal DecimalString DecimalPos DecimalZ.
Import ListNotations.

Local Open Scope Z_scope.

(* ================================================================= *)
(** ** display.h: [resolution_s] *)

Module Display.

(** [struct resolution_s { unsigned long w, h, bpp; ... }] *)
Record resolution_s : Type := mk_resolution {
  w : Z;
  h : Z;
  bpp : Z
}.

(** [bool operator==(const resolution_s &other)] *)
Definition operator_eq (this other : resolution_s) : bool :=
  (w this =? w other) && (h this =? h other) && (bpp this =? bpp other).

(** [bool operator!=(const resolution_s &other)]: the negation of
    [operator==] applied to the same two values. *)
Definition operator_ne (this other : resolution_s) : bool :=
  negb (operator_eq this other).

End Display.

(* ================================================================= *)
(** ** Text: strings, lines and comma-separated fields *)

Module Text.

Local Open Scope string_scope.

(** The line feed that ends every line the disk code writes. *)
Definition LF : ascii := ascii_of_nat 10.
Definition COMMA : ascii := ascii_of_nat 44.
Definition nl : string := String LF EmptyString.

Fixpoint string_forall (p : ascii -> bool) (s : string) : bool :=
  match s with
  | EmptyString => true
  | String c s' => p c && string_forall p s'
  end.

(** Cuts [s] at every occurrence of [sep]; the separators are dropped and
    there is always at least one piece. *)
Fixpoint split (sep : ascii) (s : string) : list string :=
  match s with
  | EmptyString => [EmptyString]
  | String c s' =>
      if Ascii.eqb c sep then EmptyString :: split sep s'
      else match split sep s' with
           | piece :: pieces => String c piece :: pieces
           | [] => [String c EmptyString]
           end
  end.

(** The characters of a field that needs no quoting in a CSV file:
    ASCII letters, digits and the minus sign. *)
Definition field_char (c : ascii) : bool :=
  let n := nat_of_ascii c in
  ((48 <=? n) && (n <=? 57) || (65 <=? n) && (n <=? 90)
   || (97 <=? n) && (n <=? 122) || (n =? 45))%nat.

Definition plain_field (s : string) : bool :=
  negb (s =? EmptyString) && string_forall field_char s.

Definition plain_row (row : list string) : Prop :=
  Forall (fun f => plain_field f = true) row.

(** One row of fields as a line of text, and rows as the text of a file:
    every line, the last one too, is ended by a line feed.  A row without
    fields is an empty line. *)
Definition csv_line (row : list string) : string := String.concat "," row.

Definition concat_all (pieces : list string) : string :=
  fold_right append EmptyString pieces.

Definition csv_text (rows : list (list string)) : string :=
  concat_all (map (fun row => csv_line row ++ nl) rows).

(** What a reader of CSV files has to do with the files this program
    writes: on a text whose lines are rows of plain fields it returns these
    rows and skips the empty lines.  [csv_parse_c] (common/csv.h) is not
    part of the sources; the loaders below take the rows it returns as an
    argument, and the round trip is stated for every reader that meets this
    contract. *)
Definition csv_reader_contract (contents : string -> list (list string)) : Prop :=
  forall rows : list (list string),
    Forall plain_row rows ->
    contents (csv_text rows) =
      filter (fun row => match row with [] => false | _ => true end) rows.

(** A reader of this kind: the non-empty lines, each cut at its commas. *)
Definition simple_csv_contents (text : string) : list (list string) :=
  map (split COMMA)
      (filter (fun line => negb (line =? EmptyString)) (split LF text)).

End Text.

(* ================================================================= *)
(** ** Qt: integers as text *)

Module Qt.

Definition UINT_MAX : Z := 4294967295.
Definition INT_MIN : Z := -2147483648.
Definition INT_MAX : Z := 2147483647.

(** [QTextStream::operator<<] on an integer and [QString::number]: the
    decimal digits, with a leading minus sign for a negative number. *)
Definition number (z : Z) : string :=
  DecimalString.NilZero.string_of_int (Z.to_int z).

(** [QChar::isSpace()] for a character of code below 256: the ASCII blanks
    9..13 and 32, the next-line character 0x85 and the no-break space
    0xA0.  (A character of a string stands for the [QChar] of that code.) *)
Definition isSpace (c : ascii) : bool :=
  let n := N_of_ascii c in
  (((9 <=? n) && (n <=? 13)) || (n =? 32) || (n =? 133) || (n =? 160))%N.

Fixpoint skip_spaces (s : string) : string :=
  match s with
  | EmptyString => EmptyString
  | String c s' => if isSpace c then skip_spaces s' else s
  end.

Fixpoint drop_trailing_spaces (s : string) : string :=
  match s with
  | EmptyString => EmptyString
  | String c s' =>
      match drop_trailing_spaces s' with
      | EmptyString => if isSpace c then EmptyString
                       else String c EmptyString
      | rest => String c rest
      end
  end.

(** [QString::trimmed()]: the string without the blanks at its start and
    at its end. *)
Definition trimmed (s : string) : string :=
  drop_trailing_spaces (skip_spaces s).

(** The value of a non-empty string of decimal digits. *)
Definition digits_value (d : string) : option Z :=
  match d with
  | EmptyString => None
  | _ => option_map Z.of_uint (DecimalString.NilEmpty.uint_of_string d)
  end.

(** The integer a string denotes for [QString::toUInt()] and
    [QString::toInt()] (base 10, C locale): the blanks around it are
    skipped, then come an optional plus or minus sign and one or more
    decimal digits, and nothing else.  (Qt converts through 64 bits first
    and fails on overflow; the range checks of [toUInt] and [toInt] below
    come to the same.) *)
Definition parse_integer (s : string) : option Z :=
  match trimmed s with
  | EmptyString => None
  | String c d =>
      if Ascii.eqb c "+" then digits_value d
      else if Ascii.eqb c "-" then option_map Z.opp (digits_value d)
      else digits_value (String c d)
  end.

(** [QString::toUInt()]: the value, or 0 when the conversion fails, which
    includes a value that does not fit [unsigned int]. *)
Definition toUInt (s : string) : Z :=
  match parse_integer s with
  | Some z => if (0 <=? z) && (z <=? UINT_MAX) then z else 0
  | None => 0
  end.

(** [QString::toInt()]: the value, or 0 when the conversion fails, which
    includes a value that does not fit [int]. *)
Definition toInt (s : string) : Z :=
  match parse_integer s with
  | Some z => if (INT_MIN <=? z) && (z <=? INT_MAX) then z else 0
  | None => 0
  end.

End Qt.

(* ================================================================= *)
(** ** disk.cpp: saving and loading mode parameters and aliases *)

Module Disk.

Import Display Text Qt.
Local Open Scope string_scope.

(** Modelled from the spec: the video half of VideoSignalParameters
    ("vertical/horizontal position, horizontal scale, phase, black level").
    The declaration (capture/capture.h) is missing from the sources; the
    fields are those disk.cpp reads and writes. *)
Record input_video_params_s : Type := mk_video {
  verticalPosition : Z;
  horizontalPosition : Z;
  horizontalScale : Z;
  phase : Z;
  blackLevel : Z
}.

(** Modelled from the spec: the colour half of VideoSignalParameters
    ("color brightness/contrast for overall and each of red/green/blue
    channels"); declared in the missing capture/capture.h. *)
Record input_color_params_s : Type := mk_color {
  overallBrightness : Z;
  overallContrast : Z;
  redBrightness : Z;
  redContrast : Z;
  greenBrightness : Z;
  greenContrast : Z;
  blueBrightness : Z;
  blueContrast : Z
}.

(** Modelled from the spec: a KnownVideoMode, "an association between a
    Resolution and a VideoSignalParameters record"; declared in the missing
    capture/capture.h as the struct with the members [r], [video] and
    [color] that disk.cpp uses. *)
Record video_mode_params_s : Type := mk_mode {
  r : resolution_s;
  video : input_video_params_s;
  color : input_color_params_s
}.

(** Modelled from the spec: a ModeAlias, "a mapping from one Resolution to
    another Resolution"; declared in the missing capture/alias.h with the
    members [from] and [to] that disk.cpp uses. *)
Record mode_alias_s : Type := mk_alias {
  from : resolution_s;
  to : resolution_s
}.

(** *** Saving *)

(** The text the loop body of [kdisk_save_mode_params] streams out for one
    mode [m]. *)
Definition mode_params_block (m : video_mode_params_s) : string :=
  (* Resolution. *)
  "resolution," ++ number (w (r m)) ++ "," ++ number (h (r m)) ++ nl ++
  (* Video params. *)
  "vPos," ++ number (verticalPosition (video m)) ++ nl ++
  "hPos," ++ number (horizontalPosition (video m)) ++ nl ++
  "hScale," ++ number (horizontalScale (video m)) ++ nl ++
  "phase," ++ number (phase (video m)) ++ nl ++
  "bLevel," ++ number (blackLevel (video m)) ++ nl ++
  (* Color params. *)
  "bright," ++ number (overallBrightness (color m)) ++ nl ++
  "contr," ++ number (overallContrast (color m)) ++ nl ++
  "redBr," ++ number (redBrightness (color m)) ++ nl ++
  "redCn," ++ number (redContrast (color m)) ++ nl ++
  "greenBr," ++ number (greenBrightness (color m)) ++ nl ++
  "greenCn," ++ number (greenContrast (color m)) ++ nl ++
  "blueBr," ++ number (blueBrightness (color m)) ++ nl ++
  "blueCn," ++ number (blueContrast (color m)) ++ nl ++
  (* Separate the next block. *)
  nl.

Definition mode_params_text (modeParams : list video_mode_params_s) : string :=
  concat_all (map mode_params_block modeParams).

(** [kdisk_save_mode_params]: the value returned and, when it is [true], the
    contents of the target file.  [disk_ok] says whether [file_writer_c]
    stayed valid and could move its temporary file onto the target; when it
    could not, the target file is left alone. *)
Definition kdisk_save_mode_params (disk_ok : bool)
    (modeParams : list video_mode_params_s) : bool * option string :=
  if disk_ok then (true, Some (mode_params_text modeParams))
  else (false, None).

(** *** Loading *)

(** What one step of a loader comes to: a value, the [goto fail] (directly
    or through [throw 0]), or an index past the end of a [QList], for which
    Qt defines no result. *)
Inductive fetch (A : Type) : Type :=
| Got (a : A)
| Thrown
| PastEnd.
Arguments Got {A} a.
Arguments Thrown {A}.
Arguments PastEnd {A}.

(** A reading step over the rows from index [i] on: the rows still to read
    stand for [i]. *)
Definition cursor (A : Type) : Type :=
  list (list string) -> fetch (A * list (list string)).

Definition ret {A : Type} (a : A) : cursor A := fun rows => Got (a, rows).

Definition bind {A B : Type} (c : cursor A) (k : A -> cursor B) : cursor B :=
  fun rows =>
    match c rows with
    | Got (a, rows') => k a rows'
    | Thrown => Thrown
    | PastEnd => PastEnd
    end.

Notation "x <- c ;; k" := (bind c (fun x => k))
  (at level 61, c at next level, right associativity).

(** The lambda [get_param] of [kdisk_load_video_mode_params]:
    [paramRows[i].at(0)] must be [name], and the value is
    [paramRows[i++].at(1)]. *)
Definition get_param (name : string) : cursor string :=
  fun rows =>
    match rows with
    | [] => PastEnd
    | [] :: _ => PastEnd
    | (f0 :: fs) :: rest =>
        if negb (f0 =? name) then Thrown
        else match fs with
             | [] => PastEnd
             | f1 :: _ => Got (f1, rest)
             end
    end.

(** One turn of the [for] loop: the 3-element [resolution] row, then the
    thirteen parameters in the order in which they were saved.  [p.r.bpp]
    is never assigned; [bpp0] is the value the fresh [p] happens to hold. *)
Definition read_mode_block (bpp0 : Z) : cursor video_mode_params_s :=
  fun rows =>
    match rows with
    | [] => PastEnd
    | [f0; f1; f2] :: rest =>
        if negb (f0 =? "resolution") then Thrown
        else
          (vPos <- get_param "vPos" ;;
           hPos <- get_param "hPos" ;;
           hScale <- get_param "hScale" ;;
           phase_ <- get_param "phase" ;;
           bLevel <- get_param "bLevel" ;;
           bright <- get_param "bright" ;;
           contr <- get_param "contr" ;;
           redBr <- get_param "redBr" ;;
           redCn <- get_param "redCn" ;;
           greenBr <- get_param "greenBr" ;;
           greenCn <- get_param "greenCn" ;;
           blueBr <- get_param "blueBr" ;;
           blueCn <- get_param "blueCn" ;;
           ret (mk_mode
                  (mk_resolution (toUInt f1) (toUInt f2) bpp0)
                  (mk_video (toInt vPos) (toInt hPos) (toInt hScale)
                            (toInt phase_) (toInt bLevel))
                  (mk_color (toInt bright) (toInt contr) (toInt redBr)
                            (toInt redCn) (toInt greenBr) (toInt greenCn)
                            (toInt blueBr) (toInt blueCn)))) rest
    | _ :: _ => Thrown
    end.

(** The [for (int i = 0; i < paramRows.count();)] loop.  Every turn moves
    [i] forward, so [fuel] = the number of rows is enough turns
    ([mode_blocks_loop_fuel] below). *)
Fixpoint mode_blocks_loop (fuel : nat) (uninit : nat -> Z)
    (rows : list (list string)) (videoModeParams : list video_mode_params_s)
    : fetch (list video_mode_params_s) :=
  match rows with
  | [] => Got videoModeParams
  | _ :: _ =>
      match fuel with
      | O => PastEnd
      | S fuel' =>
          match read_mode_block (uninit (List.length videoModeParams)) rows with
          | Got (p, rows') =>
              mode_blocks_loop fuel' uninit rows' (videoModeParams ++ [p])
          | Thrown => Thrown
          | PastEnd => PastEnd
          end
      end
  end.

(** [unsigned long] arithmetic of the sort predicates. *)
Definition ULONG_MODULUS : Z := 2 ^ 64.

Definition area (res : resolution_s) : Z := (w res * h res) mod ULONG_MODULUS.

(** [std::sort(first, last, comp)].  C++ leaves the order of elements that
    compare equal open; here they keep their order.  The statements below
    rely only on the result being a sorted rearrangement. *)
Fixpoint sort_insert {A : Type} (comp : A -> A -> bool) (x : A) (l : list A)
    : list A :=
  match l with
  | [] => [x]
  | y :: l' => if comp y x then y :: sort_insert comp x l' else x :: y :: l'
  end.

Definition std_sort {A : Type} (comp : A -> A -> bool) (l : list A) : list A :=
  fold_right (sort_insert comp) [] l.

(** What a call of a loader comes to. *)
Inductive load_outcome (A : Type) : Type :=
| Skipped            (* returned true at once: no file name, nothing read *)
| Loaded (l : list A) (* returned true after handing [l] over to
                         kpropagate_loaded_..._from_disk *)
| Rejected           (* returned false through [fail:], nothing handed over *)
| OutOfRange.        (* indexed a QList past its end *)
Arguments Skipped {A}.
Arguments Loaded {A} l.
Arguments Rejected {A}.
Arguments OutOfRange {A}.

Definition returned_value {A : Type} (o : load_outcome A) : option bool :=
  match o with
  | Skipped | Loaded _ => Some true
  | Rejected => Some false
  | OutOfRange => None
  end.

(** The list handed over to the rest of the program, if any. *)
Definition propagated {A : Type} (o : load_outcome A) : option (list A) :=
  match o with
  | Loaded l => Some l
  | _ => None
  end.

(** [kdisk_load_video_mode_params]; [paramRows] is what
    [csv_parse_c(sourceFilename).contents()] returns. *)
Definition kdisk_load_video_mode_params (uninit : nat -> Z)
    (sourceFilename : string) (paramRows : list (list string))
    : load_outcome video_mode_params_s :=
  if sourceFilename =? EmptyString then Skipped
  else
    match mode_blocks_loop (List.length paramRows) uninit paramRows [] with
    | Got videoModeParams =>
        (* Sort the modes so they'll display more nicely in the GUI. *)
        Loaded (std_sort (fun a b => (area (r a) <? area (r b))%Z) videoModeParams)
    | Thrown => Rejected
    | PastEnd => OutOfRange
    end.

(** The range-[for] over the rows of [kdisk_load_aliases]. *)
Fixpoint alias_rows_loop (uninit : nat -> Z) (rowData : list (list string))
    (aliases : list mode_alias_s) : fetch (list mode_alias_s) :=
  match rowData with
  | [] => Got aliases
  | [f0; f1; f2; f3] :: rest =>
      let k := List.length aliases in
      let a := mk_alias
                 (mk_resolution (toUInt f0) (toUInt f1) (uninit (2 * k)%nat))
                 (mk_resolution (toUInt f2) (toUInt f3) (uninit (2 * k + 1)%nat)) in
      alias_rows_loop uninit rest (aliases ++ [a])
  | _ :: _ => Thrown
  end.

(** [kdisk_load_aliases]; [rowData] is what
    [csv_parse_c(sourceFilename).contents()] returns.  After handing the
    aliases over it signals a new video mode, which is not followed here. *)
Definition kdisk_load_aliases (uninit : nat -> Z)
    (sourceFilename : string) (rowData : list (list string))
    : load_outcome mode_alias_s :=
  if sourceFilename =? EmptyString then Skipped
  else
    match alias_rows_loop uninit rowData [] with
    | Got aliases =>
        (* Sort the parameters so they display more nicely in the GUI. *)
        Loaded (std_sort (fun a b => (area (to a) <? area (to b))%Z) aliases)
    | Thrown => Rejected
    | PastEnd => OutOfRange
    end.

(** *** Notions used to state the properties of the disk code *)

(** The rows of one saved block: the resolution, the thirteen parameters. *)
Definition mode_params_data_rows (m : video_mode_params_s) : list (list string) :=
  [ ["resolution"; number (w (r m)); number (h (r m))];
    ["vPos"; number (verticalPosition (video m))];
    ["hPos"; number (horizontalPosition (video m))];
    ["hScale"; number (horizontalScale (video m))];
    ["phase"; number (phase (video m))];
    ["bLevel"; number (blackLevel (video m))];
    ["bright"; number (overallBrightness (color m))];
    ["contr"; number (overallContrast (color m))];
    ["redBr"; number (redBrightness (color m))];
    ["redCn"; number (redContrast (color m))];
    ["greenBr"; number (greenBrightness (color m))];
    ["greenCn"; number (greenContrast (color m))];
    ["blueBr"; number (blueBrightness (color m))];
    ["blueCn"; number (blueContrast (color m))] ].

(** The lines of one saved block: its rows and the empty line after them. *)
Definition mode_params_lines (m : video_mode_params_s) : list (list string) :=
  mode_params_data_rows m ++ [[]].

(** The names of the parameter rows, in the order of the file. *)
Definition param_names : list string :=
  ["vPos"; "hPos"; "hScale"; "phase"; "bLevel"; "bright"; "contr"; "redBr";
   "redCn"; "greenBr"; "greenCn"; "blueBr"; "blueCn"].

Definition fits_uint (z : Z) : Prop := (0 <= z <= UINT_MAX)%Z.
Definition fits_int (z : Z) : Prop := (INT_MIN <= z <= INT_MAX)%Z.

(** Every saved field of [m] is in the range of the 32-bit type through
    which the loader reads it back ([toUInt] for the resolution, [toInt]
    for the parameters). *)
Definition saved_fields_fit (m : video_mode_params_s) : Prop :=
  fits_uint (w (r m)) /\ fits_uint (h (r m)) /\
  fits_int (verticalPosition (video m)) /\
  fits_int (horizontalPosition (video m)) /\
  fits_int (horizontalScale (video m)) /\
  fits_int (phase (video m)) /\
  fits_int (blackLevel (video m)) /\
  fits_int (overallBrightness (color m)) /\
  fits_int (overallContrast (color m)) /\
  fits_int (redBrightness (color m)) /\
  fits_int (redContrast (color m)) /\
  fits_int (greenBrightness (color m)) /\
  fits_int (greenContrast (color m)) /\
  fits_int (blueBrightness (color m)) /\
  fits_int (blueContrast (color m)).

(** The fields of a mode that the file holds: all but [r.bpp]. *)
Definition saved_fields (m : video_mode_params_s)
    : Z * Z * input_video_params_s * input_color_params_s :=
  (w (r m), h (r m), video m, color m).

(** [m] with the colour depth replaced. *)
Definition with_bpp (bpp0 : Z) (m : video_mode_params_s) : video_mode_params_s :=
  mk_mode (mk_resolution (w (r m)) (h (r m)) bpp0) (video m) (color m).

(** The modes as they are read back in file order, the [k]-th read finding
    [uninit k] in the unassigned [bpp]. *)
Fixpoint read_back (uninit : nat -> Z) (k : nat) (l : list video_mode_params_s)
    : list video_mode_params_s :=
  match l with
  | [] => []
  | m :: l' => with_bpp (uninit k) m :: read_back uninit (S k) l'
  end.

(** Parameter rows [name, value] for the given names and values. *)
Definition param_rows (names vals : list string) : list (list string) :=
  map (fun nv => [fst nv; snd nv]) (combine names vals).

(** The two ways in which a loader hands nothing over. *)
Definition returns_true_and_loads_nothing {A : Type} (o : load_outcome A) : Prop :=
  returned_value o = Some true /\ propagated o = None.

Definition returns_false_and_loads_nothing {A : Type} (o : load_outcome A) : Prop :=
  returned_value o = Some false /\ propagated o = None.

(** Two modes for the examples. *)
Definition mode_1080p : video_mode_params_s :=
  mk_mode (mk_resolution 1920 1080 24)
          (mk_video 12 (-3) 0 16 8) (mk_color 32 128 30 120 31 121 33 (-1)).

Definition mode_vga : video_mode_params_s :=
  mk_mode (mk_resolution 640 480 16)
          (mk_video 0 5 (-2) 0 0) (mk_color 32 128 32 128 32 128 32 128).

(** A second set of parameters for 1920 x 1080. *)
Definition mode_1080p_dark : video_mode_params_s :=
  mk_mode (mk_resolution 1920 1080 24)
          (mk_video 12 (-3) 0 16 8) (mk_color 10 128 30 120 31 121 33 (-1)).

(** Ascending by the area [w * h] of the resolution. *)
Definition area_le (a b : video_mode_params_s) : Prop :=
  (w (r a) * h (r a) <= w (r b) * h (r b))%Z.

End Disk.

(* ================================================================= *)
(** ** capture_api_rgbeasy.h: the parameter store, the event flags and the
       skip window *)

Module Capture.

Import Display Disk.

(** Modelled from the spec: [video_signal_parameters_s], the element type
    of [knownVideoModes] in the header; its declaration
    (capture/capture_api.h) is missing from the sources.  A resolution with
    its video and colour parameters, as the records of the mode-parameter
    file. *)
Definition video_signal_parameters_s : Type := video_mode_params_s.

(** *** Signal parameter store *)

Section Store.

(** What [get_default_video_signal_parameters()] returns: the default of
    step (3). *)
Variable default_parameters : video_signal_parameters_s.

(** Modelled from the spec: step (1) of the resolution algorithm, "check
    ModeAlias list for an exact match on the reported resolution; if found,
    substitute the aliased resolution for all subsequent lookups".  The
    alias code (capture/alias.h) is missing from the sources. *)
Definition alias_target (aliases : list mode_alias_s) (res : resolution_s)
    : resolution_s :=
  match find (fun a => operator_eq (from a) res) aliases with
  | Some a => to a
  | None => res
  end.

(** Modelled from the spec: steps (2) and (3), "search KnownVideoMode list
    for an exact resolution match; if found, return its parameters", else
    the default.  This is the lookup without alias redirection. *)
Definition known_parameters (knownVideoModes : list video_signal_parameters_s)
    (res : resolution_s) : video_signal_parameters_s :=
  match find (fun m => operator_eq (r m) res) knownVideoModes with
  | Some m => m
  | None => default_parameters
  end.

(** Modelled from the spec: [get_video_signal_parameters_for_resolution],
    declared in the header; its body is missing from the sources.  Steps
    (1) to (3) of section 4.1. *)
Definition get_video_signal_parameters_for_resolution
    (aliases : list mode_alias_s)
    (knownVideoModes : list video_signal_parameters_s)
    (res : resolution_s) : video_signal_parameters_s :=
  known_parameters knownVideoModes (alias_target aliases res).

End Store.

(** The alias list maps the source of [a] to one target only. *)
Definition single_target (aliases : list mode_alias_s) (a : mode_alias_s) : Prop :=
  forall b, In b aliases -> operator_eq (from b) (from a) = true -> to b = to a.

(** An alias for the examples: 1280 x 720 stands for 1920 x 1080. *)
Definition alias_720p : mode_alias_s :=
  mk_alias (mk_resolution 1280 720 24) (mk_resolution 1920 1080 24).

(** *** Capture events *)

(** Modelled from the spec: the event kinds of [capture_event_e]
    (capture/capture_api.h, missing from the sources), and [none] for a
    poll that finds no flag set. *)
Inductive capture_event_e : Type :=
| none
| unrecoverable_error
| signal_lost
| invalid_signal
| new_video_mode
| signal_gained
| new_frame.

(** [static_cast<int>(event)] *)
Definition event_index (e : capture_event_e) : nat :=
  match e with
  | none => 0
  | unrecoverable_error => 1
  | signal_lost => 2
  | invalid_signal => 3
  | new_video_mode => 4
  | signal_gained => 5
  | new_frame => 6
  end.

Definition num_enumerators : nat := 7.

(** [bool rgbeasyCaptureEventFlags[num_enumerators]] *)
Definition event_flags : Type := list bool.

Definition no_events : event_flags := repeat false num_enumerators.

(** [array[i] = v] *)
Fixpoint array_set {A : Type} (array : list A) (i : nat) (v : A) : list A :=
  match array, i with
  | [], _ => []
  | _ :: rest, O => v :: rest
  | x :: rest, S i' => x :: array_set rest i' v
  end.

Definition flag (flags : event_flags) (e : capture_event_e) : bool :=
  nth (event_index e) flags false.

(** Modelled from the spec: [push_capture_event], the spec's [post]: "sets
    the flag for that event kind".  Declared in the header; the body is
    missing from the sources. *)
Definition push_capture_event (e : capture_event_e) (flags : event_flags)
    : event_flags :=
  array_set flags (event_index e) true.

(** Modelled from the spec: [pop_capture_event], the spec's
    [poll_and_clear]: "returns whether the flag was set and clears it". *)
Definition pop_capture_event (e : capture_event_e) (flags : event_flags)
    : bool * event_flags :=
  (flag flags e, array_set flags (event_index e) false).

(** Modelled from the spec: the order in which [pop_capture_event_queue]
    polls the flags, "unrecoverable-error first, then signal state changes,
    then new-frame"; the signal-state kinds in the order signal lost,
    invalid signal, new video mode, signal gained. *)
Definition poll_order : list capture_event_e :=
  [unrecoverable_error; signal_lost; invalid_signal; new_video_mode;
   signal_gained; new_frame].

(** Modelled from the spec: the poll of [pop_capture_event_queue], which
    "drains in a fixed priority order" and surfaces at most one event: the
    flags are popped in turn until one is found set. *)
Fixpoint poll_in_order (order : list capture_event_e) (flags : event_flags)
    : capture_event_e * event_flags :=
  match order with
  | [] => (none, flags)
  | e :: later =>
      let (was_set, flags') := pop_capture_event e flags in
      if was_set then (e, flags') else poll_in_order later flags'
  end.

(** Modelled from the spec: [pop_capture_event_queue], declared in the
    header; its body is missing from the sources. *)
Definition pop_capture_event_queue (flags : event_flags)
    : capture_event_e * event_flags :=
  poll_in_order poll_order flags.

(** The three classes of the priority order. *)
Definition priority_class (e : capture_event_e) : nat :=
  match e with
  | unrecoverable_error => 0
  | signal_lost | invalid_signal | new_video_mode | signal_gained => 1
  | new_frame => 2
  | none => 3
  end.

(** *** Frame slot and skip window *)

(** Modelled from the spec: the states of the frame slot (section 4.3). *)
Inductive slot_state : Type := Empty | Filling | Filled | Reserved.

(** Modelled from the spec: the part of [capture_api_rgbeasy_s] that the
    frame callback and [apply_new_capture_resolution] work on.  The event
    flags and [skipNextNumFrames] are members in the header; the frame slot
    and the count of dropped frames live in the missing
    capture_api_rgbeasy.cpp. *)
Record controller : Type := mk_controller {
  slot : slot_state;
  frameData : list Z;           (* the pixel bytes of the frame buffer *)
  missedFrames : nat;           (* read by get_missed_frames_count() *)
  eventFlags : event_flags;     (* rgbeasyCaptureEventFlags *)
  skipNextNumFrames : nat       (* "If > 0, the next n captured frames
                                   should be ignored by the rest of VCS." *)
}.

Section FrameDelivery.

(** The number of frames to skip after a mode change. *)
Variable skip_window : nat.

(** Whether [begin_write] turns a frame away in a given slot state.
    Section 4.3 of the spec has it fail when the slot is [Reserved];
    section 8 also has it fail on a slot that is [Filled] and was never
    reserved.  The frame delivery below is stated for either reading. *)
Variable slot_busy : slot_state -> bool.

(** Modelled from the spec: [begin_write] of section 4.3.  A frame that is
    turned away counts as dropped; otherwise the pixels are copied, the slot
    ends [Filled] and a new-frame event is posted. *)
Definition begin_write (pixels : list Z) (c : controller) : bool * controller :=
  if slot_busy (slot c) then
    (false, mk_controller (slot c) (frameData c) (S (missedFrames c))
                          (eventFlags c) (skipNextNumFrames c))
  else
    (true, mk_controller Filled pixels (missedFrames c)
                         (push_capture_event new_frame (eventFlags c))
                         (skipNextNumFrames c)).

(** Modelled from the spec: [should_current_frame_be_skipped], declared in
    the header; the frames of the skip window are the ones to skip. *)
Definition should_current_frame_be_skipped (c : controller) : bool :=
  (0 <? skipNextNumFrames c)%nat.

(** Modelled from the spec: the driver's frame-ready callback.  A frame that
    the slot can take is discarded while the skip window is open, and uses
    up one frame of the window; after that frames are written to the
    slot. *)
Definition frame_captured (pixels : list Z) (c : controller) : controller :=
  if slot_busy (slot c) then snd (begin_write pixels c)
  else if should_current_frame_be_skipped c then
    mk_controller (slot c) (frameData c) (missedFrames c) (eventFlags c)
                  (pred (skipNextNumFrames c))
  else snd (begin_write pixels c).

(** The callback fired once for each of [frames], in order. *)
Definition frames_captured (frames : list (list Z)) (c : controller)
    : controller :=
  fold_left (fun c' pixels => frame_captured pixels c') frames c.

(** Modelled from the spec: what [apply_new_capture_resolution] does to the
    frame hand-off: it "resets the dropped-frame counter and arms an
    N-frame skip window". *)
Definition apply_new_capture_resolution (c : controller) : controller :=
  mk_controller (slot c) (frameData c) 0 (eventFlags c) skip_window.

End FrameDelivery.

(** The two readings of the spec for a busy slot. *)
Definition busy_when_reserved (s : slot_state) : bool :=
  match s with Reserved => true | _ => false end.

Definition busy_unless_empty (s : slot_state) : bool :=
  match s with Empty => false | _ => true end.

End Capture.

(* ================================================================= *)
(** ** disk.cpp: the alias file *)

Module AliasFile.

Import Display Text Qt Disk.
Local Open Scope string_scope.

(** The line [kdisk_save_aliases] streams out for one alias.  The first
    number goes through [file_writer_c::operator<<(const unsigned)], which
    takes it as an [unsigned int]; the others go to the [QTextStream] as
    they are.  Every number, the last one too, is followed by a comma. *)
Definition alias_line (a : mode_alias_s) : string :=
  number (w (from a) mod (UINT_MAX + 1)) ++ "," ++ number (h (from a)) ++ "," ++
  number (w (to a)) ++ "," ++ number (h (to a)) ++ "," ++ nl.

Definition aliases_text (aliases : list mode_alias_s) : string :=
  concat_all (map alias_line aliases).

(** [kdisk_save_aliases]: the value returned and, when it is [true], the
    contents of the target file; [disk_ok] as for
    [kdisk_save_mode_params]. *)
Definition kdisk_save_aliases (disk_ok : bool) (aliases : list mode_alias_s)
    : bool * option string :=
  if disk_ok then (true, Some (aliases_text aliases)) else (false, None).

(** Rows as lines in which every field is followed by a comma. *)
Definition csv_line_trailing (row : list string) : string :=
  concat_all (map (fun f => f ++ ",") row).

Definition csv_text_trailing (rows : list (list string)) : string :=
  concat_all (map (fun row => csv_line_trailing row ++ nl) rows).

(** What a reader of CSV files has to do with the alias files this program
    writes, if the program is to read them at all: a line of plain fields
    that ends in a comma gives these fields, with no empty field after the
    last comma.  [csv_parse_c] is not part of the sources. *)
Definition csv_reader_contract_trailing
    (contents : string -> list (list string)) : Prop :=
  forall rows : list (list string),
    Forall plain_row rows -> Forall (fun row => row <> []) rows ->
    contents (csv_text_trailing rows) = rows.

(** A reader of this kind: the non-empty lines cut at their commas, the
    empty fields dropped. *)
Definition csv_contents_dropping_empty (text : string) : list (list string) :=
  map (fun line => filter (fun f => negb (f =? EmptyString)) (split COMMA line))
      (filter (fun line => negb (line =? EmptyString)) (split LF text)).

(** The row of one saved alias. *)
Definition alias_row (a : mode_alias_s) : list string :=
  [number (w (from a) mod (UINT_MAX + 1)); number (h (from a));
   number (w (to a)); number (h (to a))].

(** The fields of an alias that the file holds. *)
Definition alias_fields (a : mode_alias_s) : Z * Z * Z * Z :=
  (w (from a), h (from a), w (to a), h (to a)).

Definition alias_fits (a : mode_alias_s) : Prop :=
  fits_uint (w (from a)) /\ fits_uint (h (from a))
  /\ fits_uint (w (to a)) /\ fits_uint (h (to a)).

(** The alias a row of four fields is read as; the two colour depths are
    not assigned by the loader. *)
Definition alias_of_row (bpp_from bpp_to : Z) (row : list string) : mode_alias_s :=
  mk_alias (mk_resolution (toUInt (nth 0 row EmptyString))
                          (toUInt (nth 1 row EmptyString)) bpp_from)
           (mk_resolution (toUInt (nth 2 row EmptyString))
                          (toUInt (nth 3 row EmptyString)) bpp_to).

(** Ascending by the area of the resolution an alias leads to. *)
Definition target_area_le (a b : mode_alias_s) : Prop :=
  (w (to a) * h (to a) <= w (to b) * h (to b))%Z.

End AliasFile.

(* ================================================================= *)
(** ** disk.cpp: the filter-set file *)

Module FilterSetFile.

Import Display Text Qt Disk.
Local Open Scope string_scope.

(** *** The activation of a filter set, saved in its resolutions *)

Section Activation.

(** [filter_set_s::activation_e::all], [::in] and [::out]; the enumeration
    (filter/filter.h) is missing from the sources. *)
Variables activation_all activation_in activation_out : Z.

(** [activation & flag], as a condition. *)
Definition has_flag (activation flag_ : Z) : bool :=
  negb (Z.land activation flag_ =? 0)%Z.

(** [{0, 0}] *)
Definition zero_resolution : resolution_s := mk_resolution 0 0 0.

(** The block of [kdisk_save_filter_sets] that encodes "the filter set's
    activation in the resolution values, where 0 means the set activates
    for all resolutions": the [inRes] and [outRes] that get written. *)
Definition saved_resolutions (activation : Z) (inRes outRes : resolution_s)
    : resolution_s * resolution_s :=
  if has_flag activation activation_all then (zero_resolution, zero_resolution)
  else
    (if negb (has_flag activation activation_in) then zero_resolution else inRes,
     if negb (has_flag activation activation_out) then zero_resolution else outRes).

(** The [inout] line of a filter set, and its row. *)
Definition inout_line (activation : Z) (inRes outRes : resolution_s) : string :=
  let (i, o) := saved_resolutions activation inRes outRes in
  "inout," ++ number (w i) ++ "," ++ number (h i) ++ ","
           ++ number (w o) ++ "," ++ number (h o) ++ nl.

Definition inout_row (activation : Z) (inRes outRes : resolution_s)
    : list string :=
  let (i, o) := saved_resolutions activation inRes outRes in
  ["inout"; number (w i); number (h i); number (w o); number (h o)].

(** What [kdisk_load_filter_sets] takes from the [inout] row. *)
Record inout_s : Type := mk_inout {
  in_w : Z;
  in_h : Z;
  out_w : Z;
  out_h : Z;
  activation_of : Z
}.

(** The start of a filter-set block in [kdisk_load_filter_sets]: the
    5-element [inout] row, and the activation decoded from its numbers. *)
Definition read_inout_row (row : list string) : fetch inout_s :=
  match row with
  | [f0; f1; f2; f3; f4] =>
      if negb (f0 =? "inout") then Thrown
      else
        let iw := toUInt f1 in
        let ih := toUInt f2 in
        let ow := toUInt f3 in
        let oh := toUInt f4 in
        let activation :=
          if ((iw =? 0) && (ih =? 0) && (ow =? 0) && (oh =? 0))%Z
          then Z.lor 0 activation_all
          else
            let a1 := if (negb (iw =? 0) && negb (ih =? 0))%Z
                      then Z.lor 0 activation_in else 0%Z in
            if (negb (ow =? 0) && negb (oh =? 0))%Z
            then Z.lor a1 activation_out else a1 in
        Got (mk_inout iw ih ow oh activation)
  | _ => Thrown
  end.

End Activation.

(** Both dimensions of a resolution are set. *)
Definition proper (res : resolution_s) : Prop := w res <> 0%Z /\ h res <> 0%Z.

(** *** Filter identifiers *)

(** The lambda [uuid_string] of [kdisk_load_filter_sets]: "Replace legacy
    VCS filter names with their corresponding UUIDs", otherwise "assume the
    string is already a valid UUID". *)
Definition uuid_string (proposedString : string) : string :=
  if proposedString =? "Delta Histogram" then "fc85a109-c57a-4317-994f-786652231773"
  else if proposedString =? "Unique Count" then "badb0129-f48c-4253-a66f-b0ec94e225a0"
  else if proposedString =? "Unsharp Mask" then "03847778-bb9c-4e8c-96d5-0c10335c4f34"
  else if proposedString =? "Blur" then "a5426f2e-b060-48a9-adf8-1646a2d3bd41"
  else if proposedString =? "Decimate" then "eb586eb4-2d9d-41b4-9e32-5cbcf0bbbf03"
  else if proposedString =? "Denoise" then "94adffac-be42-43ac-9839-9cc53a6d615c"
  else if proposedString =? "Denoise (NLM)" then "e31d5ee3-f5df-4e7c-81b8-227fc39cbe76"
  else if proposedString =? "Sharpen" then "1c25bbb1-dbf4-4a03-93a1-adf24b311070"
  else if proposedString =? "Median" then "de60017c-afe5-4e5e-99ca-aca5756da0e8"
  else if proposedString =? "Crop" then "2448cf4a-112d-4d70-9fc1-b3e9176b6684"
  else if proposedString =? "Flip" then "80a3ac29-fcec-4ae0-ad9e-bbd8667cc680"
  else if proposedString =? "Rotate" then "140c514d-a4b0-4882-abc6-b4e9e1ff4451"
  else proposedString.

Definition legacy_names : list string :=
  ["Delta Histogram"; "Unique Count"; "Unsharp Mask"; "Blur"; "Decimate";
   "Denoise"; "Denoise (NLM)"; "Sharpen"; "Median"; "Crop"; "Flip"; "Rotate"].

(** *** The parameters of a filter *)

(** [filter_s], with [data] as the list of the array's elements. *)
Record filter_s : Type := mk_filter {
  uuid : string;
  name : string;
  data : list Z
}.

(** What reading one filter row comes to: the filter, the [goto fail], an
    index past the end of the row, or a write past the end of
    [filter.data]. *)
Inductive filter_row (A : Type) : Type :=
| RowRead (a : A)
| RowFailed
| RowPastEnd
| DataOverrun.
Arguments RowRead {A} a.
Arguments RowFailed {A}.
Arguments RowPastEnd {A}.
Arguments DataOverrun {A}.

(** [uint datum = ....toInt()]: an [int] converted to [unsigned int]. *)
Definition int_to_uint (z : Z) : Z := z mod (UINT_MAX + 1).

(** The loop [for (uint p = 0; p < numParams; p++)] over the fields from
    index [3 + p] on; [data] is [filter.data] so far. *)
Fixpoint read_filter_data (numParams : nat) (p : nat) (fields : list string)
    (data : list Z) : filter_row (list Z) :=
  match numParams with
  | O => RowRead data
  | S n =>
      match fields with
      | [] => RowPastEnd
      | f :: fields' =>
          let datum := int_to_uint (toInt f) in
          if (datum >? 255)%Z then RowFailed
          else if (p <? List.length data)%nat
               then read_filter_data n (S p) fields'
                                     (Capture.array_set data p datum)
               else DataOverrun
      end
  end.

Section FilterRows.

(** [FILTER_DATA_LENGTH] and [kf_filter_name_for_uuid] (filter/filter.h,
    missing from the sources). *)
Variable FILTER_DATA_LENGTH : Z.
Variable kf_filter_name_for_uuid : string -> string.

(** The body of the loop over the pre-filters in [kdisk_load_filter_sets],
    for the row it has moved to: the row's first element must be [pre],
    the second is the identifier, the third the number of parameters, the
    others the parameters.  [data0] is the [data] of the fresh [filter]. *)
Definition read_pre_filter_row (numPreFilters : Z) (data0 : list Z)
    (row : list string) : filter_row filter_s :=
  match row with
  | [] => RowPastEnd
  | f0 :: fs =>
      if negb (f0 =? "pre") then RowFailed
      else
        match fs with
        | [] => RowPastEnd
        | f1 :: fs' =>
            let uuid := uuid_string f1 in
            let name := kf_filter_name_for_uuid uuid in
            match fs' with
            | [] => RowPastEnd
            | f2 :: params =>
                let numParams := toUInt f2 in
                if (numPreFilters >=? FILTER_DATA_LENGTH)%Z then RowFailed
                else
                  match read_filter_data (Z.to_nat numParams) 0 params data0 with
                  | RowRead data => RowRead (mk_filter uuid name data)
                  | RowFailed => RowFailed
                  | RowPastEnd => RowPastEnd
                  | DataOverrun => DataOverrun
                  end
            end
        end
  end.

End FilterRows.

End FilterSetFile.

(* ================================================================= *)
(** * Properties *)

(** ** Equality of resolutions *)

Module DisplayFacts.

Import Display.

Lemma operator_eq_true_iff (a b : resolution_s) :
  operator_eq a b = true <-> a = b.
Proof.
  unfold operator_eq. rewrite !andb_true_iff, !Z.eqb_eq.
  destruct a as [wa ha ba], b as [wb hb bb]; simpl. split.
  - intros [[-> ->] ->]. reflexivity.
  - intros E. injection E as -> -> ->. auto.
Qed.

Lemma operator_eq_refl (a : resolution_s) : operator_eq a a = true.
Proof. apply operator_eq_true_iff. reflexivity. Qed.

(** C8.  Two resolutions compare equal with [operator==] exactly when their
    widths, their heights and their colour depths are equal, and
    [operator!=] is the negation of [operator==], for every pair of
    [resolution_s] values. *)
Theorem resolution_equality_componentwise :
  forall a b : resolution_s,
    (operator_eq a b = true <-> (w a = w b /\ h a = h b /\ bpp a = bpp b))
    /\ operator_ne a b = negb (operator_eq a b)
    /\ (operator_ne a b = true <->
        (w a <> w b \/ h a <> h b \/ bpp a <> bpp b)).
Proof.
  intros a b. split; [|split].
  - unfold operator_eq. rewrite !andb_true_iff, !Z.eqb_eq. tauto.
  - reflexivity.
  - unfold operator_ne, operator_eq.
    rewrite negb_true_iff, !andb_false_iff, !Z.eqb_neq. tauto.
Qed.

End DisplayFacts.

(** ** Lines and fields *)

Module TextFacts.

Import Text.
Local Open Scope string_scope.

Lemma string_app_assoc (a b c : string) : (a ++ b) ++ c = a ++ (b ++ c).
Proof. induction a as [|x a IH]; simpl; [reflexivity | now rewrite IH]. Qed.

Lemma string_forall_app (p : ascii -> bool) (a b : string) :
  string_forall p (a ++ b) = string_forall p a && string_forall p b.
Proof.
  induction a as [|x a IH]; simpl; [reflexivity|].
  rewrite IH. now rewrite andb_assoc.
Qed.

Lemma string_forall_impl (p q : ascii -> bool) (s : string) :
  (forall c, p c = true -> q c = true) ->
  string_forall p s = true -> string_forall q s = true.
Proof.
  intros Hpq. induction s as [|x s IH]; simpl; [reflexivity|].
  rewrite !andb_true_iff. intros [Hx Hs]. auto.
Qed.

(** A piece free of the separator is cut off whole. *)
Lemma split_app (sep : ascii) (a b : string) :
  string_forall (fun c => negb (Ascii.eqb c sep)) a = true ->
  split sep (a ++ String sep b) = a :: split sep b.
Proof.
  induction a as [|x a IH]; simpl.
  - intros _. now rewrite Ascii.eqb_refl.
  - rewrite andb_true_iff, negb_true_iff. intros [Hx Ha].
    rewrite Hx, (IH Ha). reflexivity.
Qed.

Lemma split_whole (sep : ascii) (a : string) :
  string_forall (fun c => negb (Ascii.eqb c sep)) a = true ->
  split sep a = [a].
Proof.
  induction a as [|x a IH]; simpl; [reflexivity|].
  rewrite andb_true_iff, negb_true_iff. intros [Hx Ha].
  rewrite Hx, (IH Ha). reflexivity.
Qed.

Lemma field_char_not_comma (c : ascii) :
  field_char c = true -> negb (Ascii.eqb c COMMA) = true.
Proof.
  intros H. destruct (Ascii.eqb_spec c COMMA) as [->|]; [|reflexivity].
  discriminate H.
Qed.

Lemma field_char_not_lf (c : ascii) :
  field_char c = true -> negb (Ascii.eqb c LF) = true.
Proof.
  intros H. destruct (Ascii.eqb_spec c LF) as [->|]; [|reflexivity].
  discriminate H.
Qed.

Lemma plain_field_chars (f : string) :
  plain_field f = true -> f <> EmptyString /\ string_forall field_char f = true.
Proof.
  unfold plain_field. rewrite andb_true_iff, negb_true_iff, String.eqb_neq. tauto.
Qed.

Lemma csv_line_cons (f : string) (row : list string) :
  row <> [] -> csv_line (f :: row) = f ++ String COMMA (csv_line row).
Proof. destruct row; [congruence | reflexivity]. Qed.

Lemma csv_line_no_lf (row : list string) :
  plain_row row ->
  string_forall (fun c => negb (Ascii.eqb c LF)) (csv_line row) = true.
Proof.
  induction 1 as [|f row Hf Hrow IH]; [reflexivity|].
  apply plain_field_chars in Hf. destruct Hf as [_ Hf].
  pose proof (string_forall_impl _ _ _ field_char_not_lf Hf) as Hf'.
  destruct row as [|g row]; [exact Hf'|].
  rewrite csv_line_cons by discriminate.
  rewrite string_forall_app, Hf'. simpl. exact IH.
Qed.

Lemma split_csv_line (row : list string) :
  plain_row row -> row <> [] -> split COMMA (csv_line row) = row.
Proof.
  induction 1 as [|f row Hf Hrow IH]; [congruence|]. intros _.
  apply plain_field_chars in Hf. destruct Hf as [_ Hf].
  pose proof (string_forall_impl _ _ _ field_char_not_comma Hf) as Hf'.
  destruct row as [|g row].
  - simpl. now apply split_whole.
  - rewrite csv_line_cons by discriminate.
    rewrite split_app by exact Hf'. rewrite IH by discriminate. reflexivity.
Qed.

Lemma csv_line_nonempty (row : list string) :
  plain_row row -> row <> [] -> csv_line row <> EmptyString.
Proof.
  intros Hrow Hne. destruct Hrow as [|f row Hf Hrow]; [congruence|].
  apply plain_field_chars in Hf. destruct Hf as [Hf _].
  destruct row; simpl; [exact Hf|].
  destruct f; [congruence | discriminate].
Qed.

Lemma csv_text_cons (row : list string) (rows : list (list string)) :
  csv_text (row :: rows) = csv_line row ++ String LF (csv_text rows).
Proof.
  unfold csv_text, concat_all, nl. simpl.
  now rewrite string_app_assoc.
Qed.

Lemma csv_text_app (rows1 rows2 : list (list string)) :
  csv_text (rows1 ++ rows2) = csv_text rows1 ++ csv_text rows2.
Proof.
  induction rows1 as [|row rows1 IH]; [reflexivity|].
  rewrite <- app_comm_cons, !csv_text_cons, IH, string_app_assoc. reflexivity.
Qed.

(** The reader that cuts at line feeds and commas meets the contract. *)
Lemma simple_csv_contents_contract : csv_reader_contract simple_csv_contents.
Proof.
  intros rows Hrows. unfold simple_csv_contents.
  induction Hrows as [|row rows Hrow Hrows IH]; [reflexivity|].
  rewrite csv_text_cons, split_app by (now apply csv_line_no_lf).
  simpl filter at 1. destruct row as [|f row].
  - simpl. exact IH.
  - assert (Hne : csv_line (f :: row) <> EmptyString)
      by (apply csv_line_nonempty; [exact Hrow | discriminate]).
    apply String.eqb_neq in Hne. rewrite Hne. simpl negb. cbv iota.
    rewrite map_cons, split_csv_line by (exact Hrow || discriminate).
    simpl filter. f_equal. exact IH.
Qed.

End TextFacts.

(** ** Numbers as text *)

Module QtFacts.

Import Text Qt TextFacts.
Local Open Scope string_scope.

Lemma to_int_proper (z : Z) :
  Z.to_int z <> Decimal.Pos Decimal.Nil /\ Z.to_int z <> Decimal.Neg Decimal.Nil.
Proof.
  destruct z as [|p|p]; simpl; split; try discriminate;
    intros E; injection E as E; exact (DecimalPos.Unsigned.to_uint_nonnil p E).
Qed.

Lemma digit_string_is_trimmed (d : Decimal.uint) :
  drop_trailing_spaces (DecimalString.NilEmpty.string_of_uint d)
  = DecimalString.NilEmpty.string_of_uint d.
Proof.
  induction d; cbn [DecimalString.NilEmpty.string_of_uint drop_trailing_spaces];
    try reflexivity; rewrite IHd;
    destruct (DecimalString.NilEmpty.string_of_uint d); reflexivity.
Qed.

Lemma digits_value_of_uint (d : Decimal.uint) :
  d <> Decimal.Nil ->
  digits_value (DecimalString.NilEmpty.string_of_uint d) = Some (Z.of_uint d).
Proof.
  intros Hd. unfold digits_value.
  rewrite DecimalString.NilEmpty.usu.
  destruct d; try congruence; reflexivity.
Qed.

(** Reading the digits a positive number is printed with. *)
Lemma parse_integer_digits (d : Decimal.uint) :
  d <> Decimal.Nil ->
  parse_integer (DecimalString.NilEmpty.string_of_uint d)
  = Some (Z.of_uint d)
  /\ parse_integer (String "-" (DecimalString.NilEmpty.string_of_uint d))
     = Some (- Z.of_uint d).
Proof.
  intros Hd. pose proof (digits_value_of_uint d Hd) as Hv.
  pose proof (digit_string_is_trimmed d) as Ht.
  unfold parse_integer, trimmed.
  change (skip_spaces (String "-" ?s)) with (String "-"%char s).
  assert (Hneg : drop_trailing_spaces
                   (String "-" (DecimalString.NilEmpty.string_of_uint d))
                 = String "-" (DecimalString.NilEmpty.string_of_uint d)).
  { cbn [drop_trailing_spaces]. rewrite Ht.
    destruct (DecimalString.NilEmpty.string_of_uint d); reflexivity. }
  rewrite Hneg. cbn [Ascii.eqb Bool.eqb]. cbv iota. rewrite Hv. split; [| reflexivity].
  destruct d; try congruence;
    cbn [DecimalString.NilEmpty.string_of_uint skip_spaces] in *;
    change (isSpace _) with false; cbv iota;
    cbn [DecimalString.NilEmpty.string_of_uint] in Ht; rewrite Ht;
    cbn [Ascii.eqb Bool.eqb]; cbv iota; exact Hv.
Qed.

Lemma parse_integer_number (z : Z) : parse_integer (number z) = Some z.
Proof.
  unfold number. destruct z as [| p | p].
  - reflexivity.
  - pose proof (DecimalPos.Unsigned.to_uint_nonnil p) as Hd.
    pose proof (DecimalZ.of_to (Z.pos p)) as E.
    cbn [Z.to_int Z.of_int] in E |- *.
    rewrite <- E.
    cbn [DecimalString.NilZero.string_of_int].
    replace (DecimalString.NilZero.string_of_uint (Pos.to_uint p))
      with (DecimalString.NilEmpty.string_of_uint (Pos.to_uint p))
      by (destruct (Pos.to_uint p); try congruence; reflexivity).
    apply parse_integer_digits, Hd.
  - pose proof (DecimalPos.Unsigned.to_uint_nonnil p) as Hd.
    pose proof (DecimalZ.of_to (Z.neg p)) as E.
    cbn [Z.to_int Z.of_int] in E |- *.
    rewrite <- E.
    cbn [DecimalString.NilZero.string_of_int].
    replace (DecimalString.NilZero.string_of_uint (Pos.to_uint p))
      with (DecimalString.NilEmpty.string_of_uint (Pos.to_uint p))
      by (destruct (Pos.to_uint p); try congruence; reflexivity).
    apply parse_integer_digits, Hd.
Qed.

(** The blanks around a number and a plus sign before it are accepted;
    blanks inside it, a second sign and other characters are not. *)
Lemma parse_integer_examples :
  parse_integer " 12" = Some 12
  /\ parse_integer "+13" = Some 13
  /\ parse_integer "-7 " = Some (-7)
  /\ parse_integer "007" = Some 7
  /\ parse_integer EmptyString = None
  /\ parse_integer "-" = None
  /\ parse_integer "1 2" = None
  /\ parse_integer "+-5" = None
  /\ parse_integer "12a" = None.
Proof. repeat split; reflexivity. Qed.

Lemma toUInt_number (z : Z) : 0 <= z <= UINT_MAX -> toUInt (number z) = z.
Proof.
  intros [H1 H2]. unfold toUInt. rewrite parse_integer_number.
  apply Z.leb_le in H1, H2. now rewrite H1, H2.
Qed.

Lemma toInt_number (z : Z) : INT_MIN <= z <= INT_MAX -> toInt (number z) = z.
Proof.
  intros [H1 H2]. unfold toInt. rewrite parse_integer_number.
  apply Z.leb_le in H1, H2. now rewrite H1, H2.
Qed.

Lemma toUInt_range (s : string) : 0 <= toUInt s <= UINT_MAX.
Proof.
  unfold toUInt, UINT_MAX. destruct (parse_integer s) as [z|]; [|lia].
  destruct (0 <=? z)%Z eqn:H1; destruct (z <=? 4294967295)%Z eqn:H2; simpl;
    lia.
Qed.

Lemma uint_digits (d : Decimal.uint) :
  string_forall field_char (DecimalString.NilEmpty.string_of_uint d) = true.
Proof. induction d; simpl; auto. Qed.

Lemma uint_string_plain (d : Decimal.uint) :
  d <> Decimal.Nil ->
  plain_field (DecimalString.NilZero.string_of_uint d) = true.
Proof.
  intros Hd. unfold plain_field.
  destruct d; try congruence; simpl; apply uint_digits.
Qed.

(** A printed number is a plain field: digits, after a minus sign at most. *)
Lemma number_plain (z : Z) : plain_field (number z) = true.
Proof.
  unfold number. destruct z as [|p|p]; simpl.
  - reflexivity.
  - apply uint_string_plain, DecimalPos.Unsigned.to_uint_nonnil.
  - pose proof (uint_string_plain _ (DecimalPos.Unsigned.to_uint_nonnil p)) as H.
    unfold plain_field in *. apply andb_true_iff in H. destruct H as [_ H].
    simpl. exact H.
Qed.

End QtFacts.

(** ** The mode-parameter and alias files *)

Module DiskFacts.

Import Display Text Qt Disk DisplayFacts TextFacts QtFacts.

#[local] Arguments number : simpl never.

Lemma mode_params_block_lines (m : video_mode_params_s) :
  mode_params_block m = csv_text (mode_params_lines m).
Proof.
  unfold mode_params_block, mode_params_lines, mode_params_data_rows.
  unfold csv_text, concat_all, csv_line, nl. simpl.
  rewrite !string_app_assoc. reflexivity.
Qed.

Lemma mode_params_text_lines (l : list video_mode_params_s) :
  mode_params_text l = csv_text (flat_map mode_params_lines l).
Proof.
  induction l as [|m l IH]; [reflexivity|].
  change (flat_map mode_params_lines (m :: l))
    with (mode_params_lines m ++ flat_map mode_params_lines l).
  rewrite csv_text_app, <- mode_params_block_lines, <- IH. reflexivity.
Qed.

Lemma mode_params_lines_plain (l : list video_mode_params_s) :
  Forall plain_row (flat_map mode_params_lines l).
Proof.
  induction l as [|m l IH]; [constructor|].
  simpl. repeat (apply Forall_cons);
    try (repeat (apply Forall_cons); try apply number_plain; try reflexivity;
         apply Forall_nil).
  exact IH.
Qed.

Lemma mode_params_lines_data (l : list video_mode_params_s) :
  filter (fun row : list string => match row with [] => false | _ => true end)
         (flat_map mode_params_lines l)
  = flat_map mode_params_data_rows l.
Proof.
  induction l as [|m l IH]; [reflexivity|].
  simpl. now rewrite IH.
Qed.

(** *** Reading back what was saved *)

Lemma read_mode_block_saved (bpp0 : Z) (m : video_mode_params_s)
    (rest : list (list string)) :
  saved_fields_fit m ->
  read_mode_block bpp0 (mode_params_data_rows m ++ rest)
  = Got (with_bpp bpp0 m, rest).
Proof.
  destruct m as [[w0 h0 b0] [v1 v2 v3 v4 v5] [c1 c2 c3 c4 c5 c6 c7 c8]].
  unfold saved_fields_fit, fits_uint, fits_int. simpl.
  intros (Hw & Hh & H1 & H2 & H3 & H4 & H5 & H6 & H7 & H8 & H9 & H10
          & H11 & H12 & H13).
  unfold read_mode_block, mode_params_data_rows, with_bpp, bind, get_param, ret.
  simpl.
  rewrite !toUInt_number by assumption.
  rewrite !toInt_number by assumption.
  reflexivity.
Qed.

Lemma mode_params_data_rows_length (m : video_mode_params_s) :
  List.length (mode_params_data_rows m) = 14%nat.
Proof. reflexivity. Qed.

Lemma mode_blocks_loop_step (fuel : nat) (uninit : nat -> Z)
    (row : list string) (rows : list (list string))
    (acc : list video_mode_params_s) :
  mode_blocks_loop (S fuel) uninit (row :: rows) acc
  = match read_mode_block (uninit (List.length acc)) (row :: rows) with
    | Got (p, rows') => mode_blocks_loop fuel uninit rows' (acc ++ [p])
    | Thrown => Thrown
    | PastEnd => PastEnd
    end.
Proof. reflexivity. Qed.

Lemma mode_blocks_loop_nil (fuel : nat) (uninit : nat -> Z)
    (acc : list video_mode_params_s) :
  mode_blocks_loop fuel uninit [] acc = Got acc.
Proof. destruct fuel; reflexivity. Qed.

(** The loop over the rows of saved modes, whatever follows them: one turn
    per mode, each read back as saved. *)
Lemma mode_blocks_loop_prefix (uninit : nat -> Z) (l : list video_mode_params_s) :
  Forall saved_fields_fit l ->
  forall (fuel : nat) (acc : list video_mode_params_s)
         (rest : list (list string)),
    mode_blocks_loop (List.length l + fuel) uninit
                     (flat_map mode_params_data_rows l ++ rest) acc
    = mode_blocks_loop fuel uninit rest
                       (acc ++ read_back uninit (List.length acc) l).
Proof.
  induction 1 as [|m l Hm Hl IH]; intros fuel acc rest.
  - simpl. now rewrite app_nil_r.
  - change (flat_map mode_params_data_rows (m :: l))
      with (mode_params_data_rows m ++ flat_map mode_params_data_rows l).
    rewrite <- app_assoc.
    change (List.length (m :: l) + fuel)%nat with (S (List.length l + fuel)).
    change (mode_params_data_rows m ++ ?x)
      with (hd [] (mode_params_data_rows m)
            :: tl (mode_params_data_rows m) ++ x).
    rewrite mode_blocks_loop_step.
    change (hd [] (mode_params_data_rows m)
            :: tl (mode_params_data_rows m) ++ ?x)
      with (mode_params_data_rows m ++ x).
    rewrite read_mode_block_saved by exact Hm.
    rewrite IH. rewrite <- app_assoc. simpl.
    rewrite length_app. simpl. now rewrite Nat.add_1_r.
Qed.

Lemma mode_blocks_loop_saved (uninit : nat -> Z) (l : list video_mode_params_s) :
  Forall saved_fields_fit l ->
  forall (fuel : nat) (acc : list video_mode_params_s),
    (List.length l <= fuel)%nat ->
    mode_blocks_loop fuel uninit (flat_map mode_params_data_rows l) acc
    = Got (acc ++ read_back uninit (List.length acc) l).
Proof.
  intros Hl fuel acc Hfuel.
  replace fuel with (List.length l + (fuel - List.length l))%nat by lia.
  rewrite <- (app_nil_r (flat_map mode_params_data_rows l)).
  rewrite mode_blocks_loop_prefix by exact Hl.
  apply mode_blocks_loop_nil.
Qed.

Lemma flat_map_data_rows_length (l : list video_mode_params_s) :
  List.length (flat_map mode_params_data_rows l) = (14 * List.length l)%nat.
Proof.
  induction l as [|m l IH]; [reflexivity|].
  change (flat_map mode_params_data_rows (m :: l))
    with (mode_params_data_rows m ++ flat_map mode_params_data_rows l).
  rewrite length_app, IH, mode_params_data_rows_length. simpl. lia.
Qed.

(** *** What any successful read looks like *)

Lemma bind_got {A B : Type} (c : cursor A) (k : A -> cursor B)
    (rows : list (list string)) (x : B * list (list string)) :
  bind c k rows = Got x ->
  exists a rows', c rows = Got (a, rows') /\ k a rows' = Got x.
Proof.
  unfold bind. destruct (c rows) as [[a rows']| |]; try discriminate.
  intros H. now exists a, rows'.
Qed.

Lemma get_param_got (name v : string) (rows rest : list (list string)) :
  get_param name rows = Got (v, rest) ->
  exists row, rows = row :: rest.
Proof.
  unfold get_param. destruct rows as [|[|f0 fs] rows]; try discriminate.
  destruct (negb (f0 =? name)%string); try discriminate.
  destruct fs as [|f1 fs]; try discriminate.
  intros E. injection E as _ <-. eauto.
Qed.

Lemma read_mode_block_got (bpp0 : Z) (rows rest : list (list string))
    (p : video_mode_params_s) :
  read_mode_block bpp0 rows = Got (p, rest) ->
  fits_uint (w (r p)) /\ fits_uint (h (r p)) /\ bpp (r p) = bpp0
  /\ (List.length rest < List.length rows)%nat.
Proof.
  unfold read_mode_block.
  destruct rows as [|[|f0 [|f1 [|f2 [|f3 fs]]]] rows]; try discriminate.
  destruct (negb (f0 =? "resolution")%string); try discriminate.
  intros H.
  repeat (apply bind_got in H;
          let v := fresh "v" in let rows' := fresh "rows" in
          let Hg := fresh "Hg" in
          destruct H as (v & rows' & Hg & H);
          apply get_param_got in Hg; destruct Hg as [? ->]).
  unfold ret in H. injection H as <- <-. simpl.
  repeat split; try apply toUInt_range. lia.
Qed.

(** [fuel] = the number of rows is enough for the loop: more changes
    nothing. *)
Lemma mode_blocks_loop_fuel (uninit : nat -> Z) :
  forall (fuel1 fuel2 : nat) (rows : list (list string))
         (acc : list video_mode_params_s),
    (List.length rows <= fuel1)%nat -> (List.length rows <= fuel2)%nat ->
    mode_blocks_loop fuel1 uninit rows acc
    = mode_blocks_loop fuel2 uninit rows acc.
Proof.
  induction fuel1 as [|fuel1 IH]; intros fuel2 rows acc H1 H2.
  - destruct rows; [|simpl in H1; lia]. now rewrite !mode_blocks_loop_nil.
  - destruct rows as [|row rows]; [now rewrite !mode_blocks_loop_nil|].
    destruct fuel2 as [|fuel2]; [simpl in H2; lia|].
    rewrite !mode_blocks_loop_step.
    destruct (read_mode_block _ (row :: rows)) as [[p rows']| |] eqn:E;
      try reflexivity.
    apply read_mode_block_got in E. destruct E as (_ & _ & _ & Hlen).
    simpl in Hlen, H1, H2. apply IH; lia.
Qed.

Lemma mode_blocks_loop_got (uninit : nat -> Z) :
  forall (fuel : nat) (rows : list (list string))
         (acc l : list video_mode_params_s),
    mode_blocks_loop fuel uninit rows acc = Got l ->
    Forall (fun m => fits_uint (w (r m)) /\ fits_uint (h (r m))) acc ->
    Forall (fun m => fits_uint (w (r m)) /\ fits_uint (h (r m))) l.
Proof.
  induction fuel as [|fuel IH]; intros rows acc l H Hacc.
  - destruct rows; simpl in H; [|discriminate]. now injection H as <-.
  - destruct rows as [|row rows].
    + simpl in H. now injection H as <-.
    + rewrite mode_blocks_loop_step in H.
      destruct (read_mode_block _ (row :: rows)) as [[p rows']| |] eqn:E;
        try discriminate.
      apply read_mode_block_got in E. destruct E as (Hw & Hh & _ & _).
      apply (IH _ _ _ H). apply Forall_app. split; [exact Hacc|].
      constructor; [now split | constructor].
Qed.

Lemma saved_fields_read_back (uninit : nat -> Z) (l : list video_mode_params_s) :
  forall k, map saved_fields (read_back uninit k l) = map saved_fields l.
Proof.
  induction l as [|m l IH]; intros k; simpl; [reflexivity|].
  now rewrite IH.
Qed.

Lemma read_back_bpp (uninit : nat -> Z) (l : list video_mode_params_s) :
  forall k, Forall (fun m => exists i, bpp (r m) = uninit i) (read_back uninit k l).
Proof.
  induction l as [|m l IH]; intros k; simpl; constructor.
  - exists k. reflexivity.
  - apply IH.
Qed.

(** *** [std::sort] by a key *)

Section SortByKey.

Context {A : Type} (key : A -> Z).

Let comp (a b : A) : bool := key a <? key b.
Let key_le (a b : A) : Prop := key a <= key b.

Lemma sort_insert_perm (c : A -> A -> bool) (x : A) (l : list A) :
  Permutation (x :: l) (sort_insert c x l).
Proof.
  induction l as [|y l IH]; simpl; [reflexivity|].
  destruct (c y x); [|reflexivity].
  rewrite perm_swap. now constructor.
Qed.

Lemma std_sort_perm (c : A -> A -> bool) (l : list A) :
  Permutation l (std_sort c l).
Proof.
  induction l as [|x l IH]; simpl; [constructor|].
  rewrite <- sort_insert_perm. now constructor.
Qed.

Lemma sort_insert_sorted (x : A) (l : list A) :
  StronglySorted key_le l -> StronglySorted key_le (sort_insert comp x l).
Proof.
  induction 1 as [|y l Hl IH Hy]; simpl.
  - repeat constructor.
  - unfold comp at 1. destruct (Z.ltb_spec (key y) (key x)) as [Hlt|Hge].
    + constructor; [exact IH|].
      eapply Permutation_Forall; [apply sort_insert_perm|].
      constructor; [unfold key_le; lia | exact Hy].
    + constructor; [now constructor|].
      constructor; [exact Hge|].
      eapply Forall_impl; [|exact Hy]. unfold key_le. intros; lia.
Qed.

Lemma std_sort_sorted (l : list A) : StronglySorted key_le (std_sort comp l).
Proof.
  induction l as [|x l IH]; simpl; [constructor|].
  now apply sort_insert_sorted.
Qed.

End SortByKey.

Lemma StronglySorted_on {A : Type} (P : A -> Prop) (R R' : A -> A -> Prop)
    (l : list A) :
  (forall a b, P a -> P b -> R a b -> R' a b) ->
  Forall P l -> StronglySorted R l -> StronglySorted R' l.
Proof.
  intros HR HP HS. induction HS as [|x l Hl IH Hx]; [constructor|].
  inversion HP as [|? ? Px Pl]; subst. constructor; [auto|].
  rewrite Forall_forall in *. intros y Hy. apply HR; auto.
Qed.

Lemma area_exact (res : resolution_s) :
  fits_uint (w res) -> fits_uint (h res) -> area res = w res * h res.
Proof.
  unfold fits_uint, UINT_MAX, area, ULONG_MODULUS. intros Hw Hh.
  apply Z.mod_small. nia.
Qed.

(** *** Saving, then loading *)

Lemma mode_params_block_saved_fields (m m' : video_mode_params_s) :
  saved_fields m = saved_fields m' -> mode_params_block m = mode_params_block m'.
Proof.
  destruct m as [[w0 h0 b0] v c], m' as [[w1 h1 b1] v' c'].
  unfold saved_fields. simpl. intros E. injection E as -> -> -> ->.
  reflexivity.
Qed.

(** The text of the file does not depend on the colour depths. *)
Lemma mode_params_text_saved_fields (l l' : list video_mode_params_s) :
  map saved_fields l = map saved_fields l' ->
  mode_params_text l = mode_params_text l'.
Proof.
  revert l'. induction l as [|m l IH]; intros [|m' l'] E; try discriminate.
  - reflexivity.
  - change (saved_fields m :: map saved_fields l
            = saved_fields m' :: map saved_fields l') in E.
    assert (Em : saved_fields m = saved_fields m') by congruence.
    assert (El : map saved_fields l = map saved_fields l') by congruence.
    change (append (mode_params_block m) (mode_params_text l)
            = append (mode_params_block m') (mode_params_text l')).
    now rewrite (mode_params_block_saved_fields _ _ Em), (IH _ El).
Qed.

(** The rows a reader returns for the text of saved modes. *)
Lemma contents_of_saved_modes (contents : string -> list (list string))
    (l : list video_mode_params_s) :
  csv_reader_contract contents ->
  contents (mode_params_text l) = flat_map mode_params_data_rows l.
Proof.
  intros Hread. rewrite mode_params_text_lines.
  rewrite Hread by apply mode_params_lines_plain.
  apply mode_params_lines_data.
Qed.

(** Loading the rows of saved modes: the modes in ascending order of area,
    read back field by field. *)
Lemma load_saved_rows (uninit : nat -> Z) (sourceFilename : string)
    (l : list video_mode_params_s) :
  sourceFilename <> EmptyString ->
  Forall saved_fields_fit l ->
  kdisk_load_video_mode_params uninit sourceFilename
                               (flat_map mode_params_data_rows l)
  = Loaded (std_sort (fun a b => area (r a) <? area (r b))
                     (read_back uninit 0 l)).
Proof.
  intros Hname Hfit. unfold kdisk_load_video_mode_params.
  apply String.eqb_neq in Hname. rewrite Hname.
  rewrite mode_blocks_loop_saved
    by (exact Hfit || (rewrite flat_map_data_rows_length; lia)).
  reflexivity.
Qed.

Lemma read_back_fits (uninit : nat -> Z) (l : list video_mode_params_s) :
  Forall saved_fields_fit l ->
  forall k, Forall (fun m => fits_uint (w (r m)) /\ fits_uint (h (r m)))
                   (read_back uninit k l).
Proof.
  induction 1 as [|m l Hm Hl IH]; intros k; simpl; constructor.
  - destruct Hm as (Hw & Hh & _). now split.
  - apply IH.
Qed.

(** A list sorted with the predicate of the loader ascends by area, when
    the areas do not wrap around. *)
Lemma sorted_by_area (l : list video_mode_params_s) :
  Forall (fun m => fits_uint (w (r m)) /\ fits_uint (h (r m))) l ->
  StronglySorted area_le (std_sort (fun a b => area (r a) <? area (r b)) l).
Proof.
  intros Hfit.
  apply (StronglySorted_on
           (fun m => fits_uint (w (r m)) /\ fits_uint (h (r m)))
           (fun a b => area (r a) <= area (r b))).
  - intros a b [Hwa Hha] [Hwb Hhb]. unfold area_le.
    now rewrite !area_exact by assumption.
  - eapply Permutation_Forall; [apply std_sort_perm | exact Hfit].
  - apply (std_sort_sorted (fun m => area (r m))).
Qed.

(** C9.  Round trip through the mode-parameter file: when
    [kdisk_save_mode_params] has written the modes [L] and
    [kdisk_load_video_mode_params] reads that file back, it hands over
    exactly the records of [L] with every saved field preserved (width,
    height, the five video and the eight colour parameters), in ascending
    order of the area [w * h]; the colour depth [bpp] is not carried by the
    file: what is handed over holds whatever the fresh records happened to
    hold, and modes that differ in [bpp] only give the same file.  The
    saved fields are taken to fit the 32-bit types through which the loader
    reads them back, and the CSV reader to return the rows of the lines
    that were written. *)
Theorem mode_params_round_trip
    (contents : string -> list (list string)) (uninit : nat -> Z)
    (sourceFilename : string) (disk_ok : bool)
    (L : list video_mode_params_s) (text : string) :
  csv_reader_contract contents ->
  sourceFilename <> EmptyString ->
  Forall saved_fields_fit L ->
  kdisk_save_mode_params disk_ok L = (true, Some text) ->
  exists L' : list video_mode_params_s,
    kdisk_load_video_mode_params uninit sourceFilename (contents text)
      = Loaded L'
    /\ Permutation (map saved_fields L) (map saved_fields L')
    /\ StronglySorted area_le L'
    /\ Forall (fun m => exists k, bpp (r m) = uninit k) L'
    /\ (forall L2, map saved_fields L2 = map saved_fields L ->
                   kdisk_save_mode_params disk_ok L2 = (true, Some text)).
Proof.
  intros Hread Hname Hfit Hsave.
  unfold kdisk_save_mode_params in *.
  destruct disk_ok; [|discriminate]. injection Hsave as <-.
  exists (std_sort (fun a b => area (r a) <? area (r b)) (read_back uninit 0 L)).
  split; [|split; [|split; [|split]]].
  - rewrite contents_of_saved_modes by exact Hread.
    now apply load_saved_rows.
  - rewrite <- (saved_fields_read_back uninit L 0) at 1.
    apply Permutation_map, std_sort_perm.
  - apply sorted_by_area, read_back_fits, Hfit.
  - eapply Permutation_Forall; [apply std_sort_perm | apply read_back_bpp].
  - intros L2 E. now rewrite (mode_params_text_saved_fields _ _ E).
Qed.

(** The witness of [mode_params_round_trip]: two modes, stored with the
    larger one first, read by [simple_csv_contents]. *)
Lemma mode_params_round_trip_witness :
  exists L' : list video_mode_params_s,
    kdisk_load_video_mode_params (fun _ => 0) "modes.csv"
      (simple_csv_contents (mode_params_text [mode_1080p; mode_vga]))
      = Loaded L'
    /\ Permutation (map saved_fields [mode_1080p; mode_vga])
                   (map saved_fields L')
    /\ StronglySorted area_le L'
    /\ Forall (fun m => exists k, bpp (r m) = (fun _ : nat => 0) k) L'
    /\ (forall L2,
          map saved_fields L2 = map saved_fields [mode_1080p; mode_vga] ->
          kdisk_save_mode_params true L2
          = (true, Some (mode_params_text [mode_1080p; mode_vga]))).
Proof.
  apply (mode_params_round_trip simple_csv_contents (fun _ => 0) "modes.csv"
           true [mode_1080p; mode_vga]
           (mode_params_text [mode_1080p; mode_vga])).
  - exact simple_csv_contents_contract.
  - discriminate.
  - repeat constructor; vm_compute; discriminate.
  - reflexivity.
Defined.

(** The counterexample to C9 as stated for every list: a mode whose width
    is 2^32 is written in full ([w] is an [unsigned long]) and read back
    through [toUInt], which gives 0 for a number that does not fit
    [unsigned int]; the mode handed over has width 0, so the saved fields
    are not preserved. *)
Lemma wide_mode_is_not_read_back :
  let wide := mk_mode (mk_resolution 4294967296 480 0)
                      (mk_video 0 0 0 0 0) (mk_color 0 0 0 0 0 0 0 0) in
  let flat := mk_mode (mk_resolution 0 480 0)
                      (mk_video 0 0 0 0 0) (mk_color 0 0 0 0 0 0 0 0) in
  let text := mode_params_text [wide] in
  kdisk_save_mode_params true [wide] = (true, Some text)
  /\ kdisk_load_video_mode_params (fun _ => 0) "modes.csv"
       (simple_csv_contents text) = Loaded [flat]
  /\ ~ Permutation (map saved_fields [wide]) (map saved_fields [flat]).
Proof.
  intros wide flat text. split; [reflexivity |]. split; [reflexivity |].
  intros H. apply Permutation_length_1 in H. discriminate H.
Qed.

(** *** What the loaders turn away *)

Lemma load_without_file_name (uninit : nat -> Z) (rows : list (list string)) :
  kdisk_load_video_mode_params uninit EmptyString rows = Skipped
  /\ kdisk_load_aliases uninit EmptyString rows = Skipped.
Proof. split; reflexivity. Qed.

Lemma alias_rows_loop_bad_row (uninit : nat -> Z) (rows : list (list string)) :
  Exists (fun row => List.length row <> 4%nat) rows ->
  forall acc, alias_rows_loop uninit rows acc = Thrown.
Proof.
  induction rows as [|row rows IH]; intros Hbad acc.
  - inversion Hbad.
  - destruct row as [|f0 [|f1 [|f2 [|f3 [|f4 fs]]]]]; try reflexivity.
    inversion Hbad as [? ? Hrow | ? ? Hrows]; subst.
    + simpl in Hrow. congruence.
    + simpl. apply IH, Hrows.
Qed.

Lemma alias_rows_loop_good_rows (uninit : nat -> Z) (rows : list (list string)) :
  Forall (fun row => List.length row = 4%nat) rows ->
  forall acc, exists aliases,
    alias_rows_loop uninit rows acc = Got (acc ++ aliases)
    /\ List.length aliases = List.length rows.
Proof.
  induction 1 as [|row rows Hrow Hrows IH]; intros acc.
  - exists []. simpl. now rewrite app_nil_r.
  - destruct row as [|f0 [|f1 [|f2 [|f3 [|f4 fs]]]]]; try discriminate.
    cbn [alias_rows_loop]. cbv zeta.
    match goal with
    | |- context [alias_rows_loop uninit rows (acc ++ [?a])] =>
        destruct (IH (acc ++ [a])) as (aliases & E & Hlen);
        exists (a :: aliases)
    end.
    rewrite E, <- app_assoc. simpl.
    split; [reflexivity | now rewrite Hlen].
Qed.

Lemma load_aliases_bad_row (uninit : nat -> Z) (sourceFilename : string)
    (rows : list (list string)) :
  sourceFilename <> EmptyString ->
  Exists (fun row => List.length row <> 4%nat) rows ->
  kdisk_load_aliases uninit sourceFilename rows = Rejected.
Proof.
  intros Hname Hbad. unfold kdisk_load_aliases.
  apply String.eqb_neq in Hname. rewrite Hname.
  now rewrite alias_rows_loop_bad_row.
Qed.

(** The loop over the rows of saved modes followed by a block that the
    loader turns away. *)
Lemma load_bad_block (uninit : nat -> Z) (sourceFilename : string)
    (l : list video_mode_params_s) (row : list string)
    (rest : list (list string)) :
  sourceFilename <> EmptyString ->
  Forall saved_fields_fit l ->
  (forall bpp0, read_mode_block bpp0 (row :: rest) = Thrown) ->
  kdisk_load_video_mode_params uninit sourceFilename
    (flat_map mode_params_data_rows l ++ row :: rest) = Rejected.
Proof.
  intros Hname Hfit Hbad. unfold kdisk_load_video_mode_params.
  apply String.eqb_neq in Hname. rewrite Hname.
  rewrite length_app, flat_map_data_rows_length.
  replace (14 * List.length l + List.length (row :: rest))%nat
    with (List.length l + S (13 * List.length l + List.length rest))%nat
    by (simpl; lia).
  rewrite mode_blocks_loop_prefix by exact Hfit.
  now rewrite mode_blocks_loop_step, Hbad.
Qed.

Lemma read_mode_block_bad_header (bpp0 : Z) (row : list string)
    (rest : list (list string)) :
  (forall a b : string, row <> ["resolution"; a; b]%string) ->
  read_mode_block bpp0 (row :: rest) = Thrown.
Proof.
  intros Hrow. unfold read_mode_block.
  destruct row as [|f0 [|f1 [|f2 [|f3 fs]]]]; try reflexivity.
  destruct (String.eqb_spec f0 "resolution") as [->|Hne]; [|reflexivity].
  now destruct (Hrow f1 f2).
Qed.

Lemma read_mode_block_bad_name (bpp0 : Z) (a b : string) (k : nat)
    (vals : list string) (f0 : string) (fs : list string)
    (rest : list (list string)) :
  (k < 13)%nat -> List.length vals = k ->
  f0 <> nth k param_names EmptyString ->
  read_mode_block bpp0
    (["resolution"; a; b]%string
     :: param_rows (firstn k param_names) vals ++ (f0 :: fs) :: rest)
  = Thrown.
Proof.
  intros Hk Hlen Hne.
  do 13 (destruct k as [|k];
         [ repeat (destruct vals as [|? vals]; try discriminate Hlen);
           simpl in Hne; apply String.eqb_neq in Hne;
           unfold read_mode_block, bind, get_param; simpl; rewrite Hne;
           reflexivity
         | ]).
  lia.
Qed.

(** Every row of four fields is taken for an alias, numbers or not: a field
    that is no number is read as 0. *)
Lemma non_numeric_alias_is_loaded :
  kdisk_load_aliases (fun _ => 0) "aliases.csv" [["a"; "b"; "c"; "d"]]%string
  = Loaded [mk_alias (mk_resolution 0 0 0) (mk_resolution 0 0 0)].
Proof. reflexivity. Qed.

(** A mode file that ends inside a block: the loader indexes the rows past
    their end instead of reaching its [fail:] label. *)
Lemma truncated_mode_file_is_read_past_its_end :
  kdisk_load_video_mode_params (fun _ => 0) "modes.csv"
    [["resolution"; "640"; "480"]]%string = OutOfRange.
Proof. reflexivity. Qed.

(** Whatever the loader hands over is in ascending order of area, and is a
    rearrangement of the modes in the order of the file. *)
Lemma load_sorts_by_area (uninit : nat -> Z) (sourceFilename : string)
    (rows : list (list string)) (L' : list video_mode_params_s) :
  kdisk_load_video_mode_params uninit sourceFilename rows = Loaded L' ->
  StronglySorted area_le L'
  /\ exists L0, mode_blocks_loop (List.length rows) uninit rows [] = Got L0
                /\ Permutation L0 L'.
Proof.
  unfold kdisk_load_video_mode_params.
  destruct (sourceFilename =? EmptyString)%string; [discriminate|].
  destruct (mode_blocks_loop _ uninit rows []) as [L0| |] eqn:E;
    try discriminate.
  intros H. injection H as <-. split.
  - apply sorted_by_area. eapply mode_blocks_loop_got; [exact E | constructor].
  - exists L0. split; [reflexivity | apply std_sort_perm].
Qed.

Lemma load_aliases_good_rows (uninit : nat -> Z) (sourceFilename : string)
    (rows : list (list string)) :
  sourceFilename <> EmptyString ->
  Forall (fun row => List.length row = 4%nat) rows ->
  exists aliases,
    kdisk_load_aliases uninit sourceFilename rows = Loaded aliases
    /\ List.length aliases = List.length rows.
Proof.
  intros Hname Hrows. unfold kdisk_load_aliases.
  apply String.eqb_neq in Hname. rewrite Hname.
  destruct (alias_rows_loop_good_rows uninit rows Hrows []) as (l & E & Hlen).
  rewrite E. simpl. eexists. split; [reflexivity|].
  rewrite <- Hlen. symmetry. apply Permutation_length, std_sort_perm.
Qed.

(** C10, amended.  With an empty file name both loaders return true at
    once, having read nothing and handed nothing over.  With a file name,
    when a format check of the loader fails (an alias row that does not
    have exactly 4 fields; a mode block that does not start with a 3-field
    [resolution] row; a parameter row under another name than the expected
    one) the loader returns false and hands over no record at all, also
    when rows before were in order.  Alias rows of 4 fields are all taken,
    whatever the fields hold. *)
Theorem loaders_skip_or_reject (uninit : nat -> Z) :
  (forall rows,
     returns_true_and_loads_nothing
       (kdisk_load_video_mode_params uninit EmptyString rows)
     /\ returns_true_and_loads_nothing
          (kdisk_load_aliases uninit EmptyString rows))
  /\ (forall sourceFilename rows,
        sourceFilename <> EmptyString ->
        Exists (fun row => List.length row <> 4%nat) rows ->
        returns_false_and_loads_nothing
          (kdisk_load_aliases uninit sourceFilename rows))
  /\ (forall sourceFilename rows,
        sourceFilename <> EmptyString ->
        Forall (fun row => List.length row = 4%nat) rows ->
        exists aliases,
          kdisk_load_aliases uninit sourceFilename rows = Loaded aliases
          /\ List.length aliases = List.length rows)
  /\ (forall sourceFilename l row rest,
        sourceFilename <> EmptyString ->
        Forall saved_fields_fit l ->
        (forall a b : string, row <> ["resolution"; a; b]%string) ->
        returns_false_and_loads_nothing
          (kdisk_load_video_mode_params uninit sourceFilename
             (flat_map mode_params_data_rows l ++ row :: rest)))
  /\ (forall sourceFilename l a b k vals f0 fs rest,
        sourceFilename <> EmptyString ->
        Forall saved_fields_fit l ->
        (k < 13)%nat -> List.length vals = k ->
        f0 <> nth k param_names EmptyString ->
        returns_false_and_loads_nothing
          (kdisk_load_video_mode_params uninit sourceFilename
             (flat_map mode_params_data_rows l
              ++ ["resolution"; a; b]%string
                 :: param_rows (firstn k param_names) vals
                 ++ (f0 :: fs) :: rest))).
Proof.
  split; [|split; [|split; [|split]]].
  - intros rows. destruct (load_without_file_name uninit rows) as [-> ->].
    split; split; reflexivity.
  - intros sourceFilename rows Hname Hbad.
    rewrite load_aliases_bad_row by assumption. split; reflexivity.
  - intros sourceFilename rows. apply load_aliases_good_rows.
  - intros sourceFilename l row rest Hname Hfit Hrow.
    rewrite load_bad_block; [split; reflexivity | assumption | assumption |].
    intros bpp0. now apply read_mode_block_bad_header.
  - intros sourceFilename l a b k vals f0 fs rest Hname Hfit Hk Hlen Hne.
    rewrite load_bad_block; [split; reflexivity | assumption | assumption |].
    intros bpp0. now apply read_mode_block_bad_name.
Qed.

(** An alias file whose second row has three fields: nothing is handed
    over, the first row neither. *)
Lemma loaders_skip_or_reject_witness :
  returns_false_and_loads_nothing
    (kdisk_load_aliases (fun _ => 0) "aliases.csv"
       [["1280"; "720"; "1920"; "1080"]; ["640"; "480"; "800"]]%string).
Proof.
  apply (proj1 (proj2 (loaders_skip_or_reject (fun _ => 0)))).
  - discriminate.
  - right. left. simpl. discriminate.
Defined.

(** The counterexample to C10 as stated: the alias file with the one row
    [a,b,c,d] is malformed, and [kdisk_load_aliases] returns true and hands
    over an alias from 0 x 0 to 0 x 0; a mode block whose fields are words
    is handed over as well, with every field 0. *)
Lemma malformed_fields_are_loaded :
  let o := kdisk_load_aliases (fun _ => 0) "aliases.csv"
             [["a"; "b"; "c"; "d"]]%string in
  let o' := kdisk_load_video_mode_params (fun _ => 0) "modes.csv"
              (["resolution"; "wide"; "high"]%string
               :: param_rows param_names (repeat "none"%string 13)) in
  (returned_value o = Some true
   /\ propagated o = Some [mk_alias (mk_resolution 0 0 0) (mk_resolution 0 0 0)]
   /\ ~ returns_false_and_loads_nothing o)
  /\ (returned_value o' = Some true
      /\ propagated o'
         = Some [mk_mode (mk_resolution 0 0 0) (mk_video 0 0 0 0 0)
                         (mk_color 0 0 0 0 0 0 0 0)]
      /\ ~ returns_false_and_loads_nothing o').
Proof.
  split; (split; [reflexivity | split; [reflexivity|]]);
    intros [H _]; discriminate H.
Qed.

End DiskFacts.

(** ** The parameter store, the event flags and the skip window *)

Module CaptureFacts.

Import Display Text Qt Disk Capture DisplayFacts TextFacts QtFacts DiskFacts.

(** *** Lookup through an alias *)

Lemma alias_target_of_entry (aliases : list mode_alias_s) (a : mode_alias_s) :
  In a aliases -> single_target aliases a ->
  alias_target aliases (from a) = to a.
Proof.
  unfold alias_target, single_target.
  induction aliases as [|a0 aliases IH]; intros Hin Hone; [inversion Hin|].
  simpl. destruct (operator_eq (from a0) (from a)) eqn:E.
  - apply Hone; [now left | exact E].
  - destruct Hin as [->|Hin].
    + now rewrite operator_eq_refl in E.
    + apply IH; [exact Hin|]. intros b Hb. apply Hone. now right.
Qed.

Lemma alias_target_without_entry (aliases : list mode_alias_s)
    (res : resolution_s) :
  (forall a, In a aliases -> from a <> res) -> alias_target aliases res = res.
Proof.
  unfold alias_target. intros Hnone.
  destruct (find _ aliases) as [a|] eqn:E; [|reflexivity].
  apply find_some in E. destruct E as [Hin E].
  apply operator_eq_true_iff in E. now destruct (Hnone a Hin).
Qed.

(** C1.  For a resolution with a ModeAlias entry that maps it to a second
    resolution, the lookup of the signal parameters returns exactly the
    record that the direct lookup of the second resolution returns,
    whatever the KnownVideoMode list holds.  The alias list is taken to map
    the resolution to that one target.  "Direct" is the lookup in the
    KnownVideoMode list without alias redirection; when the second
    resolution is not itself the source of an alias, the lookup with alias
    redirection returns the same for it. *)
Theorem alias_lookup_is_lookup_of_target
    (default_parameters : video_signal_parameters_s)
    (aliases : list mode_alias_s)
    (knownVideoModes : list video_signal_parameters_s)
    (a : mode_alias_s) :
  In a aliases ->
  single_target aliases a ->
  get_video_signal_parameters_for_resolution default_parameters aliases
    knownVideoModes (from a)
  = known_parameters default_parameters knownVideoModes (to a)
  /\ ((forall b, In b aliases -> from b <> to a) ->
      get_video_signal_parameters_for_resolution default_parameters aliases
        knownVideoModes (from a)
      = get_video_signal_parameters_for_resolution default_parameters aliases
          knownVideoModes (to a)).
Proof.
  intros Hin Hone. unfold get_video_signal_parameters_for_resolution.
  rewrite alias_target_of_entry by assumption.
  split; [reflexivity|].
  intros Hend. now rewrite alias_target_without_entry.
Qed.

(** The scenario of the spec: 1920 x 1080 is a known mode, 1280 x 720 is an
    alias of it. *)
Lemma alias_lookup_is_lookup_of_target_witness :
  get_video_signal_parameters_for_resolution mode_vga [alias_720p]
    [mode_1080p] (mk_resolution 1280 720 24)
  = known_parameters mode_vga [mode_1080p] (mk_resolution 1920 1080 24)
  /\ ((forall b, In b [alias_720p] -> from b <> mk_resolution 1920 1080 24) ->
      get_video_signal_parameters_for_resolution mode_vga [alias_720p]
        [mode_1080p] (mk_resolution 1280 720 24)
      = get_video_signal_parameters_for_resolution mode_vga [alias_720p]
          [mode_1080p] (mk_resolution 1920 1080 24)).
Proof.
  apply (alias_lookup_is_lookup_of_target mode_vga [alias_720p]
           [mode_1080p] alias_720p).
  - left. reflexivity.
  - intros b [<-|[]] _. reflexivity.
Defined.

(** *** Lookup and the order of the list *)

Lemma find_known_in (knownVideoModes : list video_signal_parameters_s)
    (m : video_signal_parameters_s) :
  NoDup (map r knownVideoModes) -> In m knownVideoModes ->
  find (fun x => operator_eq (r x) (r m)) knownVideoModes = Some m.
Proof.
  induction knownVideoModes as [|m0 l IH]; intros Hnd Hin; [inversion Hin|].
  simpl in *. inversion Hnd as [|? ? Hnotin Hnd']; subst.
  destruct Hin as [->|Hin].
  - now rewrite operator_eq_refl.
  - destruct (operator_eq (r m0) (r m)) eqn:E; [|now apply IH].
    apply operator_eq_true_iff in E. exfalso. apply Hnotin.
    rewrite E. now apply in_map.
Qed.

Lemma known_parameters_perm (default_parameters : video_signal_parameters_s)
    (l l' : list video_signal_parameters_s) (res : resolution_s) :
  NoDup (map r l) -> Permutation l l' ->
  known_parameters default_parameters l res
  = known_parameters default_parameters l' res.
Proof.
  intros Hnd Hperm. unfold known_parameters.
  assert (Hnd' : NoDup (map r l'))
    by (eapply Permutation_NoDup; [apply Permutation_map, Hperm | exact Hnd]).
  destruct (find (fun m => operator_eq (r m) res) l) as [m|] eqn:E.
  - apply find_some in E. destruct E as [Hin E].
    apply operator_eq_true_iff in E. subst res.
    rewrite find_known_in; [reflexivity | exact Hnd'|].
    eapply Permutation_in; eassumption.
  - destruct (find (fun m => operator_eq (r m) res) l') as [m'|] eqn:E';
      [|reflexivity].
    apply find_some in E'. destruct E' as [Hin' E'].
    assert (Hin : In m' l)
      by (eapply Permutation_in; [symmetry|]; eassumption).
    pose proof (find_none _ _ E m' Hin) as E''. simpl in E''. congruence.
Qed.

(** *** Event flags *)

Lemma array_set_length {A : Type} (l : list A) (i : nat) (v : A) :
  List.length (array_set l i v) = List.length l.
Proof.
  revert i. induction l as [|x l IH]; intros [|i]; simpl; auto.
Qed.

Lemma nth_array_set_same {A : Type} (l : list A) (i : nat) (v d : A) :
  (i < List.length l)%nat -> nth i (array_set l i v) d = v.
Proof.
  revert i. induction l as [|x l IH]; intros [|i] Hi; simpl in *;
    try lia; [reflexivity | apply IH; lia].
Qed.

Lemma nth_array_set_other {A : Type} (l : list A) (i j : nat) (v d : A) :
  i <> j -> nth j (array_set l i v) d = nth j l d.
Proof.
  revert i j. induction l as [|x l IH]; intros [|i] [|j] Hij; simpl;
    try reflexivity; try congruence.
  apply IH. congruence.
Qed.

Lemma array_set_twice {A : Type} (l : list A) (i : nat) (v v' : A) :
  array_set (array_set l i v) i v' = array_set l i v'.
Proof.
  revert i. induction l as [|x l IH]; intros [|i]; simpl; try reflexivity.
  now rewrite IH.
Qed.

Lemma array_set_same_value {A : Type} (l : list A) (i : nat) (d : A) :
  array_set l i (nth i l d) = l.
Proof.
  revert i. induction l as [|x l IH]; intros [|i]; simpl; try reflexivity.
  now rewrite IH.
Qed.

Lemma event_index_inj (e e' : capture_event_e) :
  event_index e = event_index e' -> e = e'.
Proof. destruct e, e'; simpl; congruence. Qed.

Lemma event_index_bound (e : capture_event_e) :
  (event_index e < num_enumerators)%nat.
Proof. destruct e; unfold num_enumerators; simpl; lia. Qed.

Lemma flag_push_same (flags : event_flags) (e : capture_event_e) :
  List.length flags = num_enumerators ->
  flag (push_capture_event e flags) e = true.
Proof.
  intros Hlen. unfold flag, push_capture_event.
  apply nth_array_set_same. rewrite Hlen. apply event_index_bound.
Qed.

Lemma flag_push_other (flags : event_flags) (e e' : capture_event_e) :
  e' <> e -> flag (push_capture_event e flags) e' = flag flags e'.
Proof.
  intros Hne. unfold flag, push_capture_event.
  apply nth_array_set_other. intros E. apply Hne. symmetry.
  now apply event_index_inj.
Qed.

Lemma push_capture_event_twice (flags : event_flags) (e : capture_event_e) :
  push_capture_event e (push_capture_event e flags) = push_capture_event e flags.
Proof. apply array_set_twice. Qed.

Lemma push_capture_event_many (flags : event_flags) (e : capture_event_e)
    (n : nat) :
  Nat.iter (S n) (push_capture_event e) flags = push_capture_event e flags.
Proof.
  induction n as [|n IH]; [reflexivity|].
  change (Nat.iter (S (S n)) (push_capture_event e) flags)
    with (push_capture_event e (Nat.iter (S n) (push_capture_event e) flags)).
  rewrite IH. apply push_capture_event_twice.
Qed.

(** C3.  Posting an event kind [N >= 1] times with [push_capture_event]
    before a poll of that kind leaves the flags as one post leaves them (a
    post on top of a post changes nothing); the poll finds the flag set,
    clears it, and a further poll of that kind finds it not set.  The flags
    of the other kinds are not touched. *)
Theorem repeated_posts_collapse (e : capture_event_e) (flags : event_flags)
    (N : nat) :
  (1 <= N)%nat ->
  List.length flags = num_enumerators ->
  let posted := Nat.iter N (push_capture_event e) flags in
  let polled := pop_capture_event e posted in
  posted = push_capture_event e flags
  /\ push_capture_event e posted = posted
  /\ fst polled = true
  /\ fst (pop_capture_event e (snd polled)) = false
  /\ (forall e', e' <> e ->
        flag posted e' = flag flags e' /\ flag (snd polled) e' = flag flags e').
Proof.
  intros HN Hlen posted polled.
  destruct N as [|n]; [lia|].
  assert (Hposted : posted = push_capture_event e flags)
    by apply push_capture_event_many.
  subst polled. rewrite Hposted. unfold pop_capture_event. simpl.
  split; [reflexivity | split; [|split; [|split]]].
  - apply push_capture_event_twice.
  - now apply flag_push_same.
  - unfold flag, push_capture_event. rewrite array_set_twice.
    apply nth_array_set_same. rewrite Hlen. apply event_index_bound.
  - intros e' Hne. split; [now apply flag_push_other|].
    unfold push_capture_event. rewrite array_set_twice.
    unfold flag. apply nth_array_set_other. intros E. apply Hne. symmetry.
    now apply event_index_inj.
Qed.

Lemma repeated_posts_collapse_witness :
  let posted := Nat.iter 3 (push_capture_event signal_lost) no_events in
  let polled := pop_capture_event signal_lost posted in
  posted = push_capture_event signal_lost no_events
  /\ push_capture_event signal_lost posted = posted
  /\ fst polled = true
  /\ fst (pop_capture_event signal_lost (snd polled)) = false
  /\ (forall e', e' <> signal_lost ->
        flag posted e' = flag no_events e'
        /\ flag (snd polled) e' = flag no_events e').
Proof.
  apply (repeated_posts_collapse signal_lost no_events 3).
  - lia.
  - reflexivity.
Defined.

(** *** The poll of the event queue *)

Lemma pop_capture_event_unset (flags : event_flags) (e : capture_event_e) :
  flag flags e = false -> snd (pop_capture_event e flags) = flags.
Proof.
  intros Hunset. unfold pop_capture_event. simpl. rewrite <- Hunset.
  apply array_set_same_value.
Qed.

(** The poll returns the first event of the order whose flag is set and
    clears that flag only, or [none] when no flag of the order is set. *)
Lemma poll_in_order_first_set (order : list capture_event_e) (flags : event_flags) :
  let polled := poll_in_order order flags in
  (fst polled = none
   /\ Forall (fun e => flag flags e = false) order
   /\ snd polled = flags)
  \/ (exists before after,
        order = before ++ fst polled :: after
        /\ Forall (fun e => flag flags e = false) before
        /\ flag flags (fst polled) = true
        /\ snd polled = array_set flags (event_index (fst polled)) false).
Proof.
  induction order as [|e later IH]; simpl.
  - left. auto.
  - destruct (flag flags e) eqn:Hset; simpl.
    + right. exists [], later. auto.
    + pose proof (pop_capture_event_unset flags e Hset) as Hsame.
      simpl in Hsame. rewrite Hsame.
      destruct IH as [(Hnone & Hall & Hflags) | (before & after & Ho & Hb & Hs & Hf)].
      * left. auto.
      * right. exists (e :: before), after. simpl. rewrite <- Ho. auto.
Qed.

Lemma sorted_after {A : Type} (R : A -> A -> Prop) (before after : list A)
    (x : A) :
  StronglySorted R (before ++ x :: after) -> Forall (R x) after.
Proof.
  induction before as [|y before IH]; simpl; intros Hs;
    apply StronglySorted_inv in Hs; destruct Hs as [Hs Hall]; auto.
Qed.

Lemma poll_order_complete (e : capture_event_e) :
  e <> none -> In e poll_order.
Proof. destruct e; simpl; intros; tauto || congruence. Qed.

Lemma poll_order_without_none : ~ In none poll_order.
Proof. simpl. intros H. decompose [or] H; discriminate || assumption. Qed.

Lemma poll_order_by_class :
  StronglySorted (fun a b => (priority_class a <= priority_class b)%nat)
                 poll_order.
Proof. unfold poll_order. repeat constructor. Qed.

(** C4.  Every call of [pop_capture_event_queue] returns at most one event:
    [none] when no flag is set, and otherwise an event whose flag is set,
    clearing that flag and no other.  The event is chosen in the fixed
    priority order: unrecoverable-error first, then the signal-state events
    (signal lost, invalid signal, new video mode, signal gained), new-frame
    last; so when an error or a signal flag is set beside the new-frame
    flag, new-frame is not the event returned. *)
Theorem pop_queue_priority (flags : event_flags) :
  let polled := pop_capture_event_queue flags in
  (fst polled = none ->
     (forall e, e <> none -> flag flags e = false) /\ snd polled = flags)
  /\ (fst polled <> none ->
        flag flags (fst polled) = true
        /\ snd polled = array_set flags (event_index (fst polled)) false
        /\ (forall e, e <> none -> flag flags e = true ->
              (priority_class (fst polled) <= priority_class e)%nat))
  /\ ((exists e, (priority_class e < priority_class new_frame)%nat
                 /\ flag flags e = true) ->
      fst polled <> new_frame).
Proof.
  intros polled. unfold pop_capture_event_queue in polled.
  pose proof (poll_in_order_first_set poll_order flags) as Hpoll.
  cbv zeta in Hpoll. fold polled in Hpoll.
  assert (Hfound : fst polled <> none ->
            flag flags (fst polled) = true
            /\ snd polled = array_set flags (event_index (fst polled)) false
            /\ (forall e, e <> none -> flag flags e = true ->
                  (priority_class (fst polled) <= priority_class e)%nat)).
  { intros Hev.
    destruct Hpoll as [(Hnone & _) | (before & after & Ho & Hb & Hs & Hf)];
      [congruence|].
    split; [exact Hs | split; [exact Hf|]].
    intros e He Hset. apply poll_order_complete in He.
    rewrite Ho in He. apply in_app_or in He. destruct He as [He|[<-|He]].
    - rewrite Forall_forall in Hb. rewrite (Hb e He) in Hset. discriminate.
    - lia.
    - pose proof poll_order_by_class as Hsorted. rewrite Ho in Hsorted.
      apply sorted_after in Hsorted. rewrite Forall_forall in Hsorted.
      now apply Hsorted. }
  split; [|split].
  - intros Hev.
    destruct Hpoll as [(_ & Hall & Hflags) | (before & after & Ho & _)].
    + split; [|exact Hflags]. intros e He.
      rewrite Forall_forall in Hall. apply Hall, poll_order_complete, He.
    + exfalso. apply poll_order_without_none. rewrite Ho, Hev.
      apply in_or_app. right. now left.
  - exact Hfound.
  - intros (e & Hclass & Hset) Hev.
    assert (He : e <> none) by (intros ->; simpl in Hclass; lia).
    destruct Hfound as (_ & _ & Hmin); [rewrite Hev; discriminate|].
    specialize (Hmin e He Hset). rewrite Hev in Hmin. lia.
Qed.

Lemma polled_event_is_set (flags : event_flags) :
  fst (pop_capture_event_queue flags) <> none ->
  flag flags (fst (pop_capture_event_queue flags)) = true.
Proof.
  unfold pop_capture_event_queue. intros Hev.
  destruct (poll_in_order_first_set poll_order flags)
    as [(Hnone & _) | (_ & _ & _ & _ & Hset & _)]; [congruence | exact Hset].
Qed.

(** *** The skip window *)

Section FrameDeliveryFacts.

Variable slot_busy : slot_state -> bool.

Lemma frame_captured_in_window (pixels : list Z) (c : controller) :
  slot_busy (slot c) = false -> (0 < skipNextNumFrames c)%nat ->
  frame_captured slot_busy pixels c
  = mk_controller (slot c) (frameData c) (missedFrames c) (eventFlags c)
                  (pred (skipNextNumFrames c)).
Proof.
  intros Hfree Hskip. unfold frame_captured, should_current_frame_be_skipped.
  rewrite Hfree. apply Nat.ltb_lt in Hskip. now rewrite Hskip.
Qed.

Lemma frame_captured_after_window (pixels : list Z) (c : controller) :
  slot_busy (slot c) = false -> skipNextNumFrames c = 0%nat ->
  frame_captured slot_busy pixels c
  = mk_controller Filled pixels (missedFrames c)
                  (push_capture_event new_frame (eventFlags c)) 0.
Proof.
  intros Hfree Hskip. unfold frame_captured, should_current_frame_be_skipped,
    begin_write.
  rewrite Hfree, Hskip. reflexivity.
Qed.

(** Frames that arrive while the window is open leave everything but the
    window as it was. *)
Lemma frames_captured_in_window (frames : list (list Z)) :
  forall c : controller,
    slot_busy (slot c) = false ->
    (List.length frames <= skipNextNumFrames c)%nat ->
    frames_captured slot_busy frames c
    = mk_controller (slot c) (frameData c) (missedFrames c) (eventFlags c)
                    (skipNextNumFrames c - List.length frames).
Proof.
  induction frames as [|pixels frames IH]; intros c Hfree Hlen.
  - simpl. rewrite Nat.sub_0_r. now destruct c.
  - simpl in Hlen.
    change (frames_captured slot_busy (pixels :: frames) c)
      with (frames_captured slot_busy frames (frame_captured slot_busy pixels c)).
    rewrite frame_captured_in_window by (exact Hfree || lia).
    rewrite IH by (simpl; (exact Hfree || lia)). simpl.
    f_equal. lia.
Qed.

End FrameDeliveryFacts.

(** C5.  After [apply_new_capture_resolution] has armed a skip window of
    [N] frames, the next [N] frames that the slot could take are discarded:
    none of them changes the frame buffer or posts an event, so the
    consumer's poll shows what it showed before and no new-frame event; the
    frame after those [N] is delivered: it fills the slot and posts
    new-frame.  [apply_new_capture_resolution] also resets the count of
    dropped frames to zero. *)
Theorem skip_window_discards_frames
    (skip_window : nat) (slot_busy : slot_state -> bool)
    (c : controller) (frames : list (list Z)) (pixels : list Z) :
  slot_busy (slot c) = false ->
  List.length frames = skip_window ->
  List.length (eventFlags c) = num_enumerators ->
  let armed := apply_new_capture_resolution skip_window c in
  let skipped := frames_captured slot_busy frames armed in
  let delivered := frame_captured slot_busy pixels skipped in
  missedFrames armed = 0%nat
  /\ skipNextNumFrames armed = skip_window
  /\ (forall k, (k <= skip_window)%nat ->
        let c' := frames_captured slot_busy (firstn k frames) armed in
        eventFlags c' = eventFlags c
        /\ pop_capture_event_queue (eventFlags c')
           = pop_capture_event_queue (eventFlags c)
        /\ (flag (eventFlags c) new_frame = false ->
            fst (pop_capture_event_queue (eventFlags c')) <> new_frame)
        /\ frameData c' = frameData c
        /\ slot c' = slot c
        /\ missedFrames c' = 0%nat
        /\ skipNextNumFrames c' = (skip_window - k)%nat)
  /\ slot delivered = Filled
  /\ frameData delivered = pixels
  /\ eventFlags delivered = push_capture_event new_frame (eventFlags c)
  /\ flag (eventFlags delivered) new_frame = true
  /\ missedFrames delivered = 0%nat.
Proof.
  intros Hfree Hlen Hflags armed skipped delivered.
  assert (Hprefix : forall k, (k <= skip_window)%nat ->
            frames_captured slot_busy (firstn k frames) armed
            = mk_controller (slot c) (frameData c) 0 (eventFlags c)
                            (skip_window - k)).
  { intros k Hk. subst armed. unfold apply_new_capture_resolution.
    rewrite frames_captured_in_window; simpl;
      rewrite ?length_firstn, ?Hlen, ?Nat.min_l by lia;
      auto; lia. }
  assert (Hskipped : skipped = mk_controller (slot c) (frameData c) 0
                                             (eventFlags c) 0).
  { subst skipped. rewrite <- (firstn_all frames) at 1.
    rewrite Hlen, Hprefix by lia. now rewrite Nat.sub_diag. }
  split; [reflexivity | split; [reflexivity | split]].
  - intros k Hk c'. subst c'. rewrite (Hprefix k Hk). simpl.
    repeat split; try reflexivity.
    intros Hunset Hev.
    assert (Hne : fst (pop_capture_event_queue (eventFlags c)) <> none)
      by (rewrite Hev; discriminate).
    apply polled_event_is_set in Hne. rewrite Hev in Hne. congruence.
  - subst delivered. rewrite Hskipped.
    rewrite frame_captured_after_window by (simpl; auto). simpl.
    repeat split. now apply flag_push_same.
Qed.

Lemma skip_window_discards_frames_witness :
  let c := mk_controller Empty [] 5 no_events 0 in
  let armed := apply_new_capture_resolution 2 c in
  let skipped := frames_captured busy_when_reserved [[1]; [2]] armed in
  let delivered := frame_captured busy_when_reserved [3] skipped in
  missedFrames armed = 0%nat
  /\ skipNextNumFrames armed = 2%nat
  /\ (forall k, (k <= 2)%nat ->
        let c' := frames_captured busy_when_reserved (firstn k [[1]; [2]]) armed in
        eventFlags c' = eventFlags c
        /\ pop_capture_event_queue (eventFlags c')
           = pop_capture_event_queue (eventFlags c)
        /\ (flag (eventFlags c) new_frame = false ->
            fst (pop_capture_event_queue (eventFlags c')) <> new_frame)
        /\ frameData c' = frameData c
        /\ slot c' = slot c
        /\ missedFrames c' = 0%nat
        /\ skipNextNumFrames c' = (2 - k)%nat)
  /\ slot delivered = Filled
  /\ frameData delivered = [3]
  /\ eventFlags delivered = push_capture_event new_frame (eventFlags c)
  /\ flag (eventFlags delivered) new_frame = true
  /\ missedFrames delivered = 0%nat.
Proof.
  apply (skip_window_discards_frames 2 busy_when_reserved
           (mk_controller Empty [] 5 no_events 0) [[1]; [2]] [3]);
    reflexivity.
Defined.

(** *** A second frame before the first one is consumed *)

(** With a [Filled] slot counted as busy, a second [begin_write] before any
    reservation is turned away: one more dropped frame, the buffer as it
    was. *)
Lemma second_write_when_filled_is_busy (first second : list Z) (c : controller) :
  slot c = Empty ->
  let c1 := snd (begin_write busy_unless_empty first c) in
  let c2 := begin_write busy_unless_empty second c1 in
  fst c2 = false
  /\ missedFrames (snd c2) = S (missedFrames c1)
  /\ frameData (snd c2) = first.
Proof.
  intros Hslot. unfold begin_write. rewrite Hslot. simpl. auto.
Qed.

(** With only a [Reserved] slot counted as busy, the second [begin_write]
    is taken and overwrites the first frame. *)
Lemma second_write_when_only_reserved_is_busy (first second : list Z)
    (c : controller) :
  slot c = Empty ->
  let c1 := snd (begin_write busy_when_reserved first c) in
  let c2 := begin_write busy_when_reserved second c1 in
  fst c2 = true
  /\ missedFrames (snd c2) = missedFrames c1
  /\ frameData (snd c2) = second.
Proof.
  intros Hslot. unfold begin_write. rewrite Hslot. simpl. auto.
Qed.

(** *** The order of the known modes *)

(** C7, amended.  The result of a parameter lookup does not depend on the
    order of the KnownVideoMode list, as long as no resolution is in the
    list twice.  Loading the list from the mode-parameter file does not
    keep the stored order: [kdisk_load_video_mode_params] hands over the
    modes of the file rearranged in ascending order of the area [w * h]. *)
Theorem lookup_ignores_order_and_load_sorts :
  (forall (default_parameters : video_signal_parameters_s)
          (aliases : list mode_alias_s)
          (l l' : list video_signal_parameters_s) (res : resolution_s),
     NoDup (map r l) -> Permutation l l' ->
     get_video_signal_parameters_for_resolution default_parameters aliases l res
     = get_video_signal_parameters_for_resolution default_parameters aliases l' res)
  /\ (forall (uninit : nat -> Z) (sourceFilename : string)
             (rows : list (list string)) (L' : list video_mode_params_s),
        kdisk_load_video_mode_params uninit sourceFilename rows = Loaded L' ->
        StronglySorted area_le L'
        /\ exists L0,
             mode_blocks_loop (List.length rows) uninit rows [] = Got L0
             /\ Permutation L0 L').
Proof.
  split.
  - intros default_parameters aliases l l' res Hnd Hperm.
    unfold get_video_signal_parameters_for_resolution.
    now apply known_parameters_perm.
  - intros uninit sourceFilename rows L'. apply load_sorts_by_area.
Qed.

(** The file of the two example modes, the larger one first. *)
Lemma lookup_ignores_order_and_load_sorts_witness :
  StronglySorted area_le (read_back (fun _ => 0) 0 [mode_vga; mode_1080p])
  /\ exists L0,
       mode_blocks_loop
         (List.length (flat_map mode_params_data_rows [mode_1080p; mode_vga]))
         (fun _ => 0)
         (flat_map mode_params_data_rows [mode_1080p; mode_vga]) [] = Got L0
       /\ Permutation L0 (read_back (fun _ => 0) 0 [mode_vga; mode_1080p]).
Proof.
  apply (proj2 lookup_ignores_order_and_load_sorts (fun _ => 0) "modes.csv"%string
           (flat_map mode_params_data_rows [mode_1080p; mode_vga])).
  reflexivity.
Defined.

(** The counterexample to C7 as stated: a file that stores 1920 x 1080
    before 640 x 480 is handed over with 640 x 480 first.  No arrangement
    in ascending order of area is the stored order, so this does not hang
    on how [std::sort] places modes of equal area.  And with two entries for
    one resolution the lookup returns the one that comes first. *)
Lemma load_does_not_keep_stored_order :
  let stored := [mode_1080p; mode_vga] in
  let o := kdisk_load_video_mode_params (fun _ => 0) "modes.csv"
             (simple_csv_contents (mode_params_text stored)) in
  propagated o = Some (read_back (fun _ => 0) 0 [mode_vga; mode_1080p])
  /\ propagated o <> Some (read_back (fun _ => 0) 0 stored)
  /\ (forall L', StronglySorted area_le L' ->
                 L' <> read_back (fun _ => 0) 0 stored)
  /\ known_parameters mode_vga [mode_1080p; mode_1080p_dark]
                      (mk_resolution 1920 1080 24)
     <> known_parameters mode_vga [mode_1080p_dark; mode_1080p]
                         (mk_resolution 1920 1080 24).
Proof.
  split; [reflexivity | split; [discriminate | split]].
  - intros L' Hsorted ->. simpl in Hsorted.
    apply StronglySorted_inv in Hsorted. destruct Hsorted as [_ Hall].
    apply Forall_inv in Hall. unfold area_le in Hall. simpl in Hall. lia.
  - discriminate.
Qed.

End CaptureFacts.

(* ================================================================= *)
(** * More of disk.cpp *)

(** ** What the mode-parameter loader hands over *)

Module ModeFileFacts.

Import Display Text Qt Disk DisplayFacts TextFacts QtFacts DiskFacts.

#[local] Arguments number : simpl never.

Lemma toInt_range (s : string) : fits_int (toInt s).
Proof.
  unfold fits_int, toInt, INT_MIN, INT_MAX.
  destruct (parse_integer s) as [z|]; [|lia].
  destruct (-2147483648 <=? z)%Z eqn:H1; destruct (z <=? 2147483647)%Z eqn:H2;
    simpl; lia.
Qed.

(** A block that is read takes fourteen rows and every field of its mode is
    the result of [toUInt] or [toInt]. *)
Lemma read_mode_block_shape (bpp0 : Z) (rows rest : list (list string))
    (p : video_mode_params_s) :
  read_mode_block bpp0 rows = Got (p, rest) ->
  saved_fields_fit p
  /\ List.length rows = (14 + List.length rest)%nat.
Proof.
  unfold read_mode_block.
  destruct rows as [|[|f0 [|f1 [|f2 [|f3 fs]]]] rows]; try discriminate.
  destruct (negb (f0 =? "resolution")%string); try discriminate.
  intros H.
  repeat (apply bind_got in H;
          let v := fresh "v" in let rows' := fresh "rows" in
          let Hg := fresh "Hg" in
          destruct H as (v & rows' & Hg & H);
          apply get_param_got in Hg; destruct Hg as [? ->]).
  unfold ret in H. injection H as <- <-. split.
  - unfold saved_fields_fit. simpl.
    repeat split; try apply toUInt_range; apply toInt_range.
  - reflexivity.
Qed.

Lemma mode_blocks_loop_shape (uninit : nat -> Z) :
  forall (fuel : nat) (rows : list (list string))
         (acc l : list video_mode_params_s),
    mode_blocks_loop fuel uninit rows acc = Got l ->
    Forall saved_fields_fit acc ->
    Forall saved_fields_fit l
    /\ (List.length rows + 14 * List.length acc = 14 * List.length l)%nat.
Proof.
  induction fuel as [|fuel IH]; intros rows acc l H Hacc.
  - destruct rows; simpl in H; [|discriminate]. injection H as <-.
    split; [exact Hacc | simpl; lia].
  - destruct rows as [|row rows].
    + simpl in H. injection H as <-. split; [exact Hacc | simpl; lia].
    + rewrite mode_blocks_loop_step in H.
      destruct (read_mode_block _ (row :: rows)) as [[p rows']| |] eqn:E;
        try discriminate.
      apply read_mode_block_shape in E. destruct E as [Hp Hlen].
      apply IH in H.
      * destruct H as [Hl Hcount]. split; [exact Hl|].
        rewrite length_app in Hcount. simpl in Hcount. lia.
      * apply Forall_app. split; [exact Hacc | now constructor].
Qed.

(** X1.  Whatever the file holds, when [kdisk_load_video_mode_params] hands
    modes over, the file had exactly fourteen rows for each of them, and
    every field of every mode is in the range of the 32-bit type it was
    read through: width and height within [unsigned int], the thirteen
    parameters within [int]. *)
Theorem loaded_modes_account_for_the_rows (uninit : nat -> Z)
    (sourceFilename : string) (rows : list (list string))
    (L' : list video_mode_params_s) :
  kdisk_load_video_mode_params uninit sourceFilename rows = Loaded L' ->
  List.length rows = (14 * List.length L')%nat
  /\ Forall saved_fields_fit L'.
Proof.
  unfold kdisk_load_video_mode_params.
  destruct (sourceFilename =? EmptyString)%string; [discriminate|].
  destruct (mode_blocks_loop _ uninit rows []) as [L0| |] eqn:E;
    try discriminate.
  intros H. injection H as <-.
  apply mode_blocks_loop_shape in E; [|constructor].
  destruct E as [Hfit Hlen]. simpl in Hlen. split.
  - rewrite <- (Permutation_length (std_sort_perm _ L0)). lia.
  - eapply Permutation_Forall; [apply std_sort_perm | exact Hfit].
Qed.

Lemma loaded_modes_account_for_the_rows_witness :
  List.length (flat_map mode_params_data_rows [mode_1080p; mode_vga])
  = (14 * List.length (read_back (fun _ => 0%Z) 0 [mode_vga; mode_1080p]))%nat
  /\ Forall saved_fields_fit (read_back (fun _ => 0) 0 [mode_vga; mode_1080p]).
Proof.
  apply (loaded_modes_account_for_the_rows (fun _ => 0) "modes.csv"%string
           (flat_map mode_params_data_rows [mode_1080p; mode_vga])).
  reflexivity.
Defined.

(** The first rows of a block, too few for the block. *)
Lemma read_mode_block_cut_short (bpp0 : Z) (m : video_mode_params_s) (k : nat) :
  (1 <= k <= 13)%nat ->
  read_mode_block bpp0 (firstn k (mode_params_data_rows m)) = PastEnd.
Proof.
  intros Hk.
  destruct k as [|k]; [lia|].
  do 13 (destruct k as [|k]; [reflexivity|]).
  lia.
Qed.

(** X2.  A mode file that ends inside a block, after one to thirteen of the
    block's fourteen rows, is not turned away: [get_param] indexes
    [paramRows] at [paramRows.count()], past the end of the list, so the
    loader neither returns false nor hands anything over. *)
Theorem mode_file_cut_short_is_read_past_its_end (uninit : nat -> Z)
    (sourceFilename : string) (l : list video_mode_params_s)
    (m : video_mode_params_s) (k : nat) :
  sourceFilename <> EmptyString ->
  Forall saved_fields_fit l ->
  (1 <= k <= 13)%nat ->
  let o := kdisk_load_video_mode_params uninit sourceFilename
             (flat_map mode_params_data_rows l
              ++ firstn k (mode_params_data_rows m)) in
  o = OutOfRange /\ returned_value o = None /\ propagated o = None.
Proof.
  intros Hname Hfit Hk o.
  assert (Ho : o = OutOfRange).
  { subst o. unfold kdisk_load_video_mode_params.
    apply String.eqb_neq in Hname. rewrite Hname.
    rewrite length_app, flat_map_data_rows_length, length_firstn.
    rewrite mode_params_data_rows_length, Nat.min_l by lia.
    replace (14 * List.length l + k)%nat
      with (List.length l + S (13 * List.length l + (k - 1)))%nat by lia.
    rewrite mode_blocks_loop_prefix by exact Hfit.
    destruct (firstn k (mode_params_data_rows m)) as [|row rows] eqn:E.
    - destruct k; [lia | discriminate E].
    - rewrite mode_blocks_loop_step, <- E.
      now rewrite read_mode_block_cut_short by exact Hk. }
  rewrite Ho. auto.
Qed.

Lemma mode_file_cut_short_is_read_past_its_end_witness :
  let o := kdisk_load_video_mode_params (fun _ => 0) "modes.csv"
             (flat_map mode_params_data_rows [mode_vga]
              ++ firstn 6 (mode_params_data_rows mode_1080p)) in
  o = OutOfRange /\ returned_value o = None /\ propagated o = None.
Proof.
  apply (mode_file_cut_short_is_read_past_its_end (fun _ => 0)
           "modes.csv" [mode_vga] mode_1080p 6).
  - discriminate.
  - repeat constructor; vm_compute; discriminate.
  - lia.
Defined.

(** *** The file determines the saved fields *)

Lemma number_inj (a b : Z) : number a = number b -> a = b.
Proof.
  intros E. pose proof (parse_integer_number a) as Ha.
  rewrite E, parse_integer_number in Ha. congruence.
Qed.

Lemma flat_map_data_rows_inj (l : list video_mode_params_s) :
  forall l',
    flat_map mode_params_data_rows l = flat_map mode_params_data_rows l' ->
    map saved_fields l = map saved_fields l'.
Proof.
  induction l as [|m l IH]; intros [|m' l'] E.
  - reflexivity.
  - discriminate E.
  - discriminate E.
  - destruct m as [[w0 h0 b0] [v1 v2 v3 v4 v5] [c1 c2 c3 c4 c5 c6 c7 c8]].
    destruct m' as [[w0' h0' b0'] [v1' v2' v3' v4' v5']
                    [c1' c2' c3' c4' c5' c6' c7' c8']].
    simpl in E.
    injection E as Ew Eh E1 E2 E3 E4 E5 E6 E7 E8 E9 E10 E11 E12 E13 El.
    apply number_inj in Ew, Eh, E1, E2, E3, E4, E5, E6, E7, E8, E9, E10,
      E11, E12, E13.
    simpl. rewrite (IH _ El). unfold saved_fields. simpl. congruence.
Qed.

(** X3.  Two lists of modes give the same mode-parameter file exactly when
    they agree, mode by mode, on every saved field (width, height, the
    thirteen parameters): the file determines all of a mode but its colour
    depth. *)
Theorem mode_file_determines_saved_fields (l l' : list video_mode_params_s) :
  mode_params_text l = mode_params_text l'
  <-> map saved_fields l = map saved_fields l'.
Proof.
  split.
  - intros E. apply flat_map_data_rows_inj.
    rewrite <- !(contents_of_saved_modes simple_csv_contents)
      by apply simple_csv_contents_contract.
    now rewrite E.
  - apply mode_params_text_saved_fields.
Qed.

End ModeFileFacts.

(* ================================================================= *)
(** ** The alias file *)

Module AliasFileFacts.

Import Display Text Qt Disk AliasFile.
Import DisplayFacts TextFacts QtFacts DiskFacts.

#[local] Arguments number : simpl never.

(** *** What the alias loader hands over *)

Lemma alias_rows_loop_got (uninit : nat -> Z) (rows : list (list string)) :
  forall acc l,
    alias_rows_loop uninit rows acc = Got l ->
    Forall (fun row => List.length row = 4%nat) rows
    /\ exists read,
         l = acc ++ read
         /\ Forall2 (fun row a => alias_fields a
                                  = alias_fields (alias_of_row 0 0 row))
                    rows read.
Proof.
  induction rows as [|row rows IH]; intros acc l H.
  - simpl in H. injection H as <-. split; [constructor|].
    exists []. split; [now rewrite app_nil_r | constructor].
  - destruct row as [|f0 [|f1 [|f2 [|f3 [|f4 fs]]]]]; try discriminate.
    cbn [alias_rows_loop] in H. cbv zeta in H.
    apply IH in H. destruct H as (Hrows & read & -> & Hread). split.
    + now constructor.
    + eexists (_ :: read). split; [now rewrite <- app_assoc|].
      constructor; [reflexivity | exact Hread].
Qed.

Lemma alias_of_row_fits (bpp_from bpp_to : Z) (row : list string) :
  alias_fits (alias_of_row bpp_from bpp_to row).
Proof. unfold alias_fits. simpl. repeat split; apply toUInt_range. Qed.

Lemma alias_fits_fields (a b : mode_alias_s) :
  alias_fields a = alias_fields b -> alias_fits b -> alias_fits a.
Proof.
  unfold alias_fields, alias_fits. intros E. injection E as -> -> -> ->. auto.
Qed.

Lemma load_aliases_shape (uninit : nat -> Z)
    (sourceFilename : string) (rows : list (list string))
    (aliases : list mode_alias_s) :
  kdisk_load_aliases uninit sourceFilename rows = Loaded aliases ->
  Forall (fun row => List.length row = 4%nat) rows
  /\ Permutation (map (fun row => alias_fields (alias_of_row 0 0 row)) rows)
                 (map alias_fields aliases)
  /\ StronglySorted target_area_le aliases
  /\ Forall alias_fits aliases.
Proof.
  unfold kdisk_load_aliases.
  destruct (sourceFilename =? EmptyString)%string; [discriminate|].
  destruct (alias_rows_loop uninit rows []) as [l| |] eqn:E; try discriminate.
  intros H. injection H as <-.
  apply alias_rows_loop_got in E.
  destruct E as (Hrows & read & -> & Hread). simpl.
  assert (Hfields : map (fun row => alias_fields (alias_of_row 0 0 row)) rows
                    = map alias_fields read).
  { clear Hrows. induction Hread as [|row a rows read Ha Hread IH];
      [reflexivity|]. simpl. now rewrite Ha, IH. }
  assert (Hfit : Forall alias_fits read).
  { clear Hrows Hfields. induction Hread as [|row a rows read Ha Hread IH];
      constructor; [|exact IH].
    eapply alias_fits_fields; [exact Ha | apply alias_of_row_fits]. }
  assert (Hfit' : Forall alias_fits
                    (std_sort (fun a b => area (to a) <? area (to b)) read))
    by (eapply Permutation_Forall; [apply std_sort_perm | exact Hfit]).
  split; [exact Hrows | split; [|split; [|exact Hfit']]].
  - rewrite Hfields. apply Permutation_map, std_sort_perm.
  - apply (StronglySorted_on alias_fits
             (fun a b => area (to a) <= area (to b))).
    + intros a b (_ & _ & Hwa & Hha) (_ & _ & Hwb & Hhb).
      unfold target_area_le. now rewrite !area_exact by assumption.
    + exact Hfit'.
    + apply (std_sort_sorted (fun a => area (to a))).
Qed.

(** X4.  When [kdisk_load_aliases] hands aliases over, every row of the
    file had exactly four fields and gave one alias; the aliases are a
    rearrangement of the rows' aliases in ascending order of the area of
    the resolution they lead to, and each of their four numbers is what
    [toUInt] made of the field, within [unsigned int]. *)
Theorem loaded_aliases_are_the_rows_sorted (uninit : nat -> Z)
    (sourceFilename : string) (rows : list (list string))
    (aliases : list mode_alias_s) :
  kdisk_load_aliases uninit sourceFilename rows = Loaded aliases ->
  Forall (fun row => List.length row = 4%nat) rows
  /\ Permutation (map (fun row => alias_fields (alias_of_row 0 0 row)) rows)
                 (map alias_fields aliases)
  /\ StronglySorted target_area_le aliases
  /\ Forall alias_fits aliases.
Proof. apply load_aliases_shape. Qed.

Lemma loaded_aliases_are_the_rows_sorted_witness :
  let rows := [[" 1920"; "+1080"; "1280"; "960"];
               ["1280"; "720"; "640 "; "480"]]%string in
  let aliases := [mk_alias (mk_resolution 1280 720 0) (mk_resolution 640 480 0);
                  mk_alias (mk_resolution 1920 1080 0)
                           (mk_resolution 1280 960 0)] in
  Forall (fun row => List.length row = 4%nat) rows
  /\ Permutation (map (fun row => alias_fields (alias_of_row 0 0 row)) rows)
                 (map alias_fields aliases)
  /\ StronglySorted target_area_le aliases
  /\ Forall alias_fits aliases.
Proof.
  apply (loaded_aliases_are_the_rows_sorted (fun _ => 0) "aliases.csv"%string).
  reflexivity.
Defined.

(** *** Saving aliases, then loading them *)

Lemma csv_line_trailing_cons (f : string) (row : list string) :
  csv_line_trailing (f :: row) = append f (String COMMA (csv_line_trailing row)).
Proof.
  unfold csv_line_trailing, concat_all. simpl.
  now rewrite string_app_assoc.
Qed.

Lemma split_csv_line_trailing (row : list string) :
  plain_row row ->
  split COMMA (csv_line_trailing row) = row ++ [EmptyString].
Proof.
  induction 1 as [|f row Hf Hrow IH]; [reflexivity|].
  apply plain_field_chars in Hf. destruct Hf as [_ Hf].
  rewrite csv_line_trailing_cons, split_app
    by (exact (string_forall_impl _ _ _ field_char_not_comma Hf)).
  now rewrite IH.
Qed.

Lemma csv_line_trailing_no_lf (row : list string) :
  plain_row row ->
  string_forall (fun c => negb (Ascii.eqb c LF)) (csv_line_trailing row) = true.
Proof.
  induction 1 as [|f row Hf Hrow IH]; [reflexivity|].
  apply plain_field_chars in Hf. destruct Hf as [_ Hf].
  rewrite csv_line_trailing_cons, string_forall_app.
  rewrite (string_forall_impl _ _ _ field_char_not_lf Hf). simpl. exact IH.
Qed.

Lemma drop_empty_fields (row : list string) :
  plain_row row ->
  filter (fun f => negb (f =? EmptyString)%string) (row ++ [EmptyString]) = row.
Proof.
  induction 1 as [|f row Hf Hrow IH]; [reflexivity|].
  apply plain_field_chars in Hf. destruct Hf as [Hf _].
  apply String.eqb_neq in Hf. simpl. rewrite Hf. simpl. now rewrite IH.
Qed.

Lemma csv_text_trailing_cons (row : list string) (rows : list (list string)) :
  csv_text_trailing (row :: rows)
  = append (csv_line_trailing row) (String LF (csv_text_trailing rows)).
Proof.
  unfold csv_text_trailing, concat_all, nl. simpl.
  now rewrite string_app_assoc.
Qed.

Lemma lines_of_trailing_text (rows : list (list string)) :
  Forall plain_row rows -> Forall (fun row => row <> []) rows ->
  filter (fun line => negb (line =? EmptyString)%string)
         (split LF (csv_text_trailing rows))
  = map csv_line_trailing rows.
Proof.
  induction 1 as [|row rows Hrow Hrows IH]; intros Hne; [reflexivity|].
  inversion Hne as [|? ? Hrow_ne Hrows_ne]; subst.
  rewrite csv_text_trailing_cons, split_app
    by (now apply csv_line_trailing_no_lf).
  assert (Hline : csv_line_trailing row <> EmptyString).
  { destruct row as [|f row]; [congruence|].
    rewrite csv_line_trailing_cons. destruct f; discriminate. }
  apply String.eqb_neq in Hline.
  cbn [filter]. rewrite Hline. cbn [negb]. rewrite map_cons.
  f_equal. now apply IH.
Qed.

(** The reader that drops empty fields meets the contract. *)
Lemma csv_contents_dropping_empty_contract :
  csv_reader_contract_trailing csv_contents_dropping_empty.
Proof.
  intros rows Hplain Hne. unfold csv_contents_dropping_empty.
  rewrite lines_of_trailing_text by assumption.
  rewrite map_map. clear Hne.
  induction Hplain as [|row rows Hrow Hrows IH]; [reflexivity|].
  rewrite map_cons, split_csv_line_trailing, drop_empty_fields by exact Hrow.
  now rewrite IH.
Qed.

Lemma alias_line_row (a : mode_alias_s) :
  alias_line a = append (csv_line_trailing (alias_row a)) nl.
Proof.
  unfold alias_line, alias_row, csv_line_trailing, concat_all, nl. simpl.
  rewrite !string_app_assoc. reflexivity.
Qed.

Lemma aliases_text_rows (aliases : list mode_alias_s) :
  aliases_text aliases = csv_text_trailing (map alias_row aliases).
Proof.
  unfold aliases_text, csv_text_trailing. rewrite map_map. f_equal.
  apply map_ext. exact alias_line_row.
Qed.

Lemma alias_rows_plain (aliases : list mode_alias_s) :
  Forall plain_row (map alias_row aliases)
  /\ Forall (fun row => row <> []) (map alias_row aliases)
  /\ Forall (fun row => List.length row = 4%nat) (map alias_row aliases).
Proof.
  induction aliases as [|a aliases (IH1 & IH2 & IH3)];
    [repeat split; constructor|].
  repeat split; constructor; auto; try discriminate.
  repeat (apply Forall_cons; [apply number_plain|]). constructor.
Qed.

Lemma alias_row_read_back (a : mode_alias_s) :
  alias_fits a ->
  alias_fields (alias_of_row 0 0 (alias_row a)) = alias_fields a.
Proof.
  intros (Hfw & Hfh & Htw & Hth).
  unfold alias_fields, alias_of_row, alias_row. simpl.
  rewrite Z.mod_small by (unfold fits_uint, UINT_MAX in Hfw; lia).
  now rewrite !toUInt_number by assumption.
Qed.

(** X5.  Round trip through the alias file: when [kdisk_save_aliases] has
    written the aliases [L] and [kdisk_load_aliases] reads that file back,
    it hands over exactly the aliases of [L] with the four numbers of each
    preserved, in ascending order of the area of the resolution they lead
    to.  The numbers are taken to fit [unsigned int], and the CSV reader to
    return the fields of each line without an empty field after the comma
    that ends the line. *)
Theorem aliases_round_trip
    (contents : string -> list (list string)) (uninit : nat -> Z)
    (sourceFilename : string) (disk_ok : bool)
    (L : list mode_alias_s) (text : string) :
  csv_reader_contract_trailing contents ->
  sourceFilename <> EmptyString ->
  Forall alias_fits L ->
  kdisk_save_aliases disk_ok L = (true, Some text) ->
  exists L' : list mode_alias_s,
    kdisk_load_aliases uninit sourceFilename (contents text) = Loaded L'
    /\ Permutation (map alias_fields L) (map alias_fields L')
    /\ StronglySorted target_area_le L'.
Proof.
  intros Hread Hname Hfit Hsave.
  unfold kdisk_save_aliases in Hsave.
  destruct disk_ok; [|discriminate]. injection Hsave as <-.
  destruct (alias_rows_plain L) as (Hplain & Hne & Hfour).
  rewrite aliases_text_rows, Hread by assumption.
  destruct (load_aliases_good_rows uninit sourceFilename _ Hname Hfour)
    as (L' & Hload & _).
  exists L'. split; [exact Hload|].
  apply load_aliases_shape in Hload.
  destruct Hload as (_ & Hperm & Hsorted & _).
  split; [|exact Hsorted].
  rewrite map_map in Hperm.
  assert (E : map (fun a => alias_fields (alias_of_row 0 0 (alias_row a))) L
              = map alias_fields L).
  { apply map_ext_in. intros a Ha. apply alias_row_read_back.
    rewrite Forall_forall in Hfit. now apply Hfit. }
  now rewrite E in Hperm.
Qed.

Lemma aliases_round_trip_witness :
  exists L' : list mode_alias_s,
    kdisk_load_aliases (fun _ => 0) "aliases.csv"
      (csv_contents_dropping_empty
         (aliases_text [Capture.alias_720p;
                        mk_alias (mk_resolution 720 400 0)
                                 (mk_resolution 640 400 0)]))
      = Loaded L'
    /\ Permutation
         (map alias_fields [Capture.alias_720p;
                            mk_alias (mk_resolution 720 400 0)
                                     (mk_resolution 640 400 0)])
         (map alias_fields L')
    /\ StronglySorted target_area_le L'.
Proof.
  apply (aliases_round_trip csv_contents_dropping_empty (fun _ => 0)
           "aliases.csv" true).
  - exact csv_contents_dropping_empty_contract.
  - discriminate.
  - repeat constructor; vm_compute; discriminate.
  - reflexivity.
Defined.

End AliasFileFacts.

(* ================================================================= *)
(** ** The filter-set file *)

Module FilterSetFileFacts.

Import Display Text Qt Disk QtFacts FilterSetFile.
Local Open Scope string_scope.
Local Open Scope Z_scope.

#[local] Arguments number : simpl never.

(** *** Activation *)

Lemma read_inout_row_numbers (activation_all activation_in activation_out : Z)
    (a b c d : Z) :
  fits_uint a -> fits_uint b -> fits_uint c -> fits_uint d ->
  read_inout_row activation_all activation_in activation_out
    ["inout"; number a; number b; number c; number d]
  = Got (mk_inout a b c d
           (if (a =? 0) && (b =? 0) && (c =? 0) && (d =? 0)
            then activation_all
            else
              let a1 := if negb (a =? 0) && negb (b =? 0)
                        then activation_in else 0 in
              if negb (c =? 0) && negb (d =? 0)
              then Z.lor a1 activation_out else a1)).
Proof.
  intros Ha Hb Hc Hd. unfold read_inout_row.
  change ("inout" =? "inout")%string with true. cbv beta iota zeta.
  change (negb true) with false. cbv iota.
  rewrite !toUInt_number by assumption.
  rewrite !Z.lor_0_l. reflexivity.
Qed.

Lemma fits_uint_0 : fits_uint 0.
Proof. unfold fits_uint, UINT_MAX. lia. Qed.

(** X6.  [kdisk_save_filter_sets] writes a filter set's activation into
    the [inout] line and [kdisk_load_filter_sets] reads it back from there.
    A set that activates for all resolutions is written with four zeros and
    read back as [all] with both resolutions 0 x 0.  Otherwise a flagged
    resolution with both dimensions set is read back with its flag, an
    unflagged one is written as 0 x 0; and a set with neither flag is read
    back as [all].  (The dimensions are to fit the 32 bits they are read
    through.) *)
Theorem activation_is_read_back
    (activation_all activation_in activation_out : Z)
    (activation : Z) (inRes outRes : resolution_s) :
  fits_uint (w inRes) -> fits_uint (h inRes) ->
  fits_uint (w outRes) -> fits_uint (h outRes) ->
  let has := has_flag activation in
  let read :=
    read_inout_row activation_all activation_in activation_out
      (inout_row activation_all activation_in activation_out
                 activation inRes outRes) in
  (has activation_all = true ->
     read = Got (mk_inout 0 0 0 0 activation_all))
  /\ (has activation_all = false ->
      has activation_in = true -> has activation_out = true ->
      proper inRes -> proper outRes ->
      read = Got (mk_inout (w inRes) (h inRes) (w outRes) (h outRes)
                           (Z.lor activation_in activation_out)))
  /\ (has activation_all = false ->
      has activation_in = true -> has activation_out = false ->
      proper inRes ->
      read = Got (mk_inout (w inRes) (h inRes) 0 0 activation_in))
  /\ (has activation_all = false ->
      has activation_in = false -> has activation_out = true ->
      proper outRes ->
      read = Got (mk_inout 0 0 (w outRes) (h outRes) activation_out))
  /\ (has activation_all = false ->
      has activation_in = false -> has activation_out = false ->
      read = Got (mk_inout 0 0 0 0 activation_all)).
Proof.
  intros Hiw Hih How Hoh has read. subst has read.
  unfold inout_row, saved_resolutions, proper.
  pose proof fits_uint_0 as H0.
  repeat split.
  - intros ->. unfold zero_resolution. cbn [w h].
    now rewrite read_inout_row_numbers.
  - intros -> -> -> [Hw Hh] [Hw' Hh']. cbn [negb w h].
    rewrite read_inout_row_numbers by assumption.
    apply Z.eqb_neq in Hw, Hh, Hw', Hh'. now rewrite Hw, Hh, Hw', Hh'.
  - intros -> -> -> [Hw Hh]. unfold zero_resolution. cbn [negb w h].
    rewrite read_inout_row_numbers by assumption.
    apply Z.eqb_neq in Hw, Hh. now rewrite Hw, Hh.
  - intros -> -> -> [Hw Hh]. unfold zero_resolution. cbn [negb w h].
    rewrite read_inout_row_numbers by assumption.
    apply Z.eqb_neq in Hw, Hh. now rewrite Hw, Hh.
  - intros -> -> ->. unfold zero_resolution. cbn [negb w h].
    now rewrite read_inout_row_numbers.
Qed.

Lemma activation_is_read_back_witness :
  read_inout_row 1 2 4
    (inout_row 1 2 4 6 (mk_resolution 640 480 0) (mk_resolution 1920 1080 0))
  = Got (mk_inout 640 480 1920 1080 6).
Proof.
  refine (proj1 (proj2 (activation_is_read_back 1 2 4 6
                          (mk_resolution 640 480 0)
                          (mk_resolution 1920 1080 0) _ _ _ _)) _ _ _ _ _);
    try reflexivity;
    try (unfold fits_uint, UINT_MAX; cbn [w h]; lia);
    split; discriminate.
Defined.

(** A flag on a resolution that lacks a dimension does not survive: with
    only such an input resolution flagged, the set is read back with no
    activation at all when the other dimension is set. *)
Lemma flag_of_a_flat_resolution_is_lost
    (activation_all activation_in activation_out : Z)
    (activation : Z) (inRes outRes : resolution_s) :
  fits_uint (h inRes) ->
  has_flag activation activation_all = false ->
  has_flag activation activation_in = true ->
  has_flag activation activation_out = false ->
  w inRes = 0 -> h inRes <> 0 ->
  read_inout_row activation_all activation_in activation_out
    (inout_row activation_all activation_in activation_out
               activation inRes outRes)
  = Got (mk_inout 0 (h inRes) 0 0 0).
Proof.
  intros Hih Hall Hin Hout Hw Hh.
  unfold inout_row, saved_resolutions. rewrite Hall, Hin, Hout.
  unfold zero_resolution. cbn [negb w h]. rewrite Hw.
  rewrite read_inout_row_numbers by (assumption || apply fits_uint_0).
  apply Z.eqb_neq in Hh. now rewrite Hh.
Qed.

(** *** Filter identifiers *)

(** X7.  The identifier that [kdisk_load_filter_sets] gives a filter is
    never one of the twelve legacy filter names; a string that is not a
    legacy name is taken as it is, and converting twice is converting
    once. *)
Theorem uuid_string_replaces_legacy_names (proposedString : string) :
  ~ In (uuid_string proposedString) legacy_names
  /\ (~ In proposedString legacy_names ->
      uuid_string proposedString = proposedString)
  /\ uuid_string (uuid_string proposedString) = uuid_string proposedString.
Proof.
  assert (Hlegacy : forall s, In s legacy_names ->
                              ~ In (uuid_string s) legacy_names).
  { intros s Hs. unfold legacy_names in Hs. cbn [In] in Hs.
    repeat (destruct Hs as [<- | Hs];
            [vm_compute; intuition discriminate |]).
    contradiction. }
  assert (Hother : forall s, ~ In s legacy_names -> uuid_string s = s).
  { intros s Hs. unfold uuid_string.
    repeat match goal with
    | |- context [String.eqb s ?c] =>
        destruct (String.eqb_spec s c) as [-> | _];
        [exfalso; apply Hs; vm_compute; tauto |]
    end.
    reflexivity. }
  destruct (in_dec string_dec proposedString legacy_names) as [Hin | Hout].
  - split; [now apply Hlegacy |]. split; [intros Hn; contradiction |].
    apply Hother. now apply Hlegacy.
  - split; [now rewrite Hother |]. split; [exact (Hother _) |].
    rewrite (Hother _ Hout). exact (Hother _ Hout).
Qed.

(** *** Filter parameters *)

Lemma int_to_uint_byte (z : Z) :
  fits_int z -> (int_to_uint z >? 255) = false ->
  int_to_uint z = z /\ 0 <= z <= 255.
Proof.
  unfold fits_int, INT_MIN, INT_MAX, int_to_uint, UINT_MAX.
  intros Hz Hle. rewrite Z.gtb_ltb, Z.ltb_ge in Hle.
  destruct (Z_lt_le_dec z 0) as [Hneg | Hpos].
  - exfalso. revert Hle.
    rewrite <- (Z.mod_add z 1) by lia. rewrite Z.mod_small by lia. lia.
  - rewrite Z.mod_small in Hle |- * by lia. lia.
Qed.

Lemma read_filter_data_shape (numParams : nat) :
  forall (p : nat) (fields : list string) (data out : list Z),
    read_filter_data numParams p fields data = RowRead out ->
    (numParams <= List.length fields)%nat
    /\ (numParams = 0%nat \/ (p + numParams <= List.length data)%nat)
    /\ List.length out = List.length data
    /\ (forall q, (q < numParams)%nat ->
          nth (p + q) out 0 = toInt (nth q fields EmptyString)
          /\ 0 <= nth (p + q) out 0 <= 255)
    /\ (forall q, (q < p)%nat \/ (p + numParams <= q)%nat ->
          nth q out 0 = nth q data 0).
Proof.
  induction numParams as [| n IH]; intros p fields data out H.
  - cbn in H. injection H as <-.
    repeat split; lia.
  - cbn [read_filter_data] in H.
    destruct fields as [| f fields']; [discriminate |].
    cbv zeta in H.
    destruct (int_to_uint (toInt f) >? 255) eqn:Hdatum; [discriminate |].
    destruct (p <? List.length data)%nat eqn:Hp; [| discriminate].
    apply Nat.ltb_lt in Hp.
    destruct (int_to_uint_byte (toInt f) (ModeFileFacts.toInt_range f) Hdatum)
      as [Edatum Hbyte].
    rewrite Edatum in H.
    apply IH in H. destruct H as (Hlen & Hroom & Hout & Hread & Hkept).
    rewrite CaptureFacts.array_set_length in Hroom, Hout.
    assert (Ep : nth p out 0 = toInt f).
    { rewrite Hkept by lia.
      now apply CaptureFacts.nth_array_set_same. }
    repeat split.
    + cbn [List.length]. lia.
    + right. destruct Hroom; lia.
    + exact Hout.
    + destruct q as [| q'].
      * rewrite Nat.add_0_r. exact Ep.
      * replace (p + S q')%nat with (S p + q')%nat by lia.
        cbn [nth]. apply Hread. lia.
    + destruct q as [| q'].
      * rewrite Nat.add_0_r, Ep. exact (proj1 Hbyte).
      * replace (p + S q')%nat with (S p + q')%nat by lia.
        apply Hread. lia.
    + destruct q as [| q'].
      * rewrite Nat.add_0_r, Ep. exact (proj2 Hbyte).
      * replace (p + S q')%nat with (S p + q')%nat by lia.
        apply Hread. lia.
    + intros q Hq. rewrite Hkept by lia.
      apply CaptureFacts.nth_array_set_other. lia.
Qed.

Lemma read_filter_data_in_bounds (numParams : nat) :
  forall (p : nat) (fields : list string) (data : list Z),
    (numParams <= List.length fields)%nat ->
    (p + numParams <= List.length data)%nat ->
    read_filter_data numParams p fields data = RowFailed
    \/ exists out, read_filter_data numParams p fields data = RowRead out.
Proof.
  induction numParams as [| n IH]; intros p fields data Hfields Hdata.
  - right. now exists data.
  - cbn [read_filter_data].
    destruct fields as [| f fields']; [cbn in Hfields; lia |].
    cbv zeta. destruct (int_to_uint (toInt f) >? 255); [now left |].
    destruct (Nat.ltb_spec p (List.length data)) as [Hp | Hp]; [| lia].
    apply IH.
    + cbn in Hfields. lia.
    + rewrite CaptureFacts.array_set_length. lia.
Qed.

(** X8.  Reading a filter row in [kdisk_load_filter_sets], for a row that
    holds all the parameters its third field announces, when these fit the
    filter's data array (otherwise the loop indexes the row or the array
    past its end).  The loader then either fails or takes the filter; and
    when it takes it, the row starts with [pre], the parameters taken are
    the numbers of the row, each within 0..255 (a negative number, read
    through [toInt] into an unsigned, is above 255 and rejected like a
    large one), and the rest of the array is untouched.  The length check
    that guards the row compares the set's number of pre-filters, not the
    row's number of parameters, with [FILTER_DATA_LENGTH]. *)
Theorem accepted_filter_parameters_are_bytes
    (FILTER_DATA_LENGTH : Z) (kf_filter_name_for_uuid : string -> string)
    (numPreFilters : Z) (data0 : list Z) (row : list string) :
  let numParams := Z.to_nat (toUInt (nth 2 row EmptyString)) in
  let read := read_pre_filter_row FILTER_DATA_LENGTH kf_filter_name_for_uuid
                                  numPreFilters data0 row in
  (3 + numParams <= List.length row)%nat ->
  (numParams <= List.length data0)%nat ->
  (read = RowFailed \/ exists filter, read = RowRead filter)
  /\ forall filter, read = RowRead filter ->
       numPreFilters < FILTER_DATA_LENGTH
       /\ nth 0 row EmptyString = "pre"%string
       /\ uuid filter = uuid_string (nth 1 row EmptyString)
       /\ name filter = kf_filter_name_for_uuid (uuid filter)
       /\ List.length (data filter) = List.length data0
       /\ (forall p, (p < numParams)%nat ->
             nth p (data filter) 0 = toInt (nth (3 + p) row EmptyString)
             /\ 0 <= nth p (data filter) 0 <= 255)
       /\ (forall p, (numParams <= p)%nat ->
             nth p (data filter) 0 = nth p data0 0).
Proof.
  intros numParams read Hrow Hdata0. subst read.
  destruct row as [| f0 [| f1 [| f2 params]]];
    try (cbn [List.length] in Hrow; lia).
  cbn [nth] in numParams. subst numParams.
  cbn [List.length] in Hrow.
  unfold read_pre_filter_row. split.
  - destruct (negb (f0 =? "pre")%string); [now left |].
    cbv zeta.
    destruct (numPreFilters >=? FILTER_DATA_LENGTH); [now left |].
    destruct (read_filter_data_in_bounds (Z.to_nat (toUInt f2)) 0 params data0)
      as [-> | [out ->]]; [lia | cbn [Nat.add]; lia | now left |].
    right. eexists. reflexivity.
  - intros filter H.
    destruct (String.eqb_spec f0 "pre") as [-> | ]; [| discriminate].
    cbn [negb] in H. cbv zeta in H.
    destruct (numPreFilters >=? FILTER_DATA_LENGTH) eqn:Hcheck;
      [discriminate |].
    destruct (read_filter_data (Z.to_nat (toUInt f2)) 0 params data0)
      as [out | | |] eqn:Hdata; try discriminate.
    injection H as <-.
    apply read_filter_data_shape in Hdata.
    destruct Hdata as (Hlen & Hroom & Hout & Hread & Hkept).
    cbn [nth uuid name data].
    rewrite Z.geb_leb, Z.leb_gt in Hcheck.
    cbn [Nat.add] in Hroom, Hread, Hkept.
    change (3 + ?p)%nat with (S (S (S p))).
    split; [exact Hcheck |]. split; [reflexivity |].
    split; [reflexivity |]. split; [reflexivity |].
    split; [exact Hout |]. split; [exact Hread |].
    intros p Hp. apply Hkept. now right.
Qed.

Lemma accepted_filter_parameters_are_bytes_witness :
  nth 1 (data (mk_filter "a5426f2e-b060-48a9-adf8-1646a2d3bd41" "Blur"
                         [5; 1; 0; 0])) 0
  = toInt (nth 4 ["pre"; "Blur"; "2"; "+5"; " 1"]%string EmptyString)
  /\ 0 <= nth 1 (data (mk_filter "a5426f2e-b060-48a9-adf8-1646a2d3bd41" "Blur"
                                 [5; 1; 0; 0])) 0 <= 255.
Proof.
  refine (proj1 (proj2 (proj2 (proj2 (proj2 (proj2
    (proj2 (accepted_filter_parameters_are_bytes 16 (fun _ => "Blur"%string) 1
              [0; 0; 0; 0] ["pre"; "Blur"; "2"; "+5"; " 1"]%string _ _)
       (mk_filter "a5426f2e-b060-48a9-adf8-1646a2d3bd41" "Blur"
                  [5; 1; 0; 0])
       eq_refl)))))) 1%nat (le_n 2)); vm_compute; lia.
Defined.

(** A negative parameter makes the loader fail. *)
Lemma negative_filter_parameter_is_rejected
    (FILTER_DATA_LENGTH : Z) (kf_filter_name_for_uuid : string -> string) :
  0 < FILTER_DATA_LENGTH ->
  read_pre_filter_row FILTER_DATA_LENGTH kf_filter_name_for_uuid 0
    [0; 0; 0; 0] ["pre"; "Blur"; "1"; "-1"]%string = RowFailed.
Proof.
  intros H. unfold read_pre_filter_row. cbn [String.eqb Ascii.eqb Bool.eqb negb].
  cbv zeta. destruct (0 >=? FILTER_DATA_LENGTH) eqn:E.
  - rewrite Z.geb_leb, Z.leb_le in E. lia.
  - reflexivity.
Qed.

End FilterSetFileFacts.
